(** * Detection post-processing: IoU, duplicate suppression, frame fusion

    A shallow embedding of [src/main.cpp]:
    - [rgb2bgr]        channel reordering of an RGB pixel buffer,
    - [calculate_iou]  intersection over union of two boxes,
    - [frame_clean]    greedy keep-first duplicate suppression,
    - [union_frames]   greedy first-match fusion of two frames.

    Machine data is modelled as the program has it: [int] is a 32-bit
    two's-complement integer (a [Z] with the wrap-around written out at
    every arithmetic operation), [float] is IEEE-754 binary32 (the
    [spec_float] of the standard library at precision 24), vectors are
    lists read and written by index. *)

From Stdlib Require Import ZArith Lia Bool.
From Stdlib Require Strings.Byte.
From Stdlib Require Import Floats.SpecFloat.
From Stdlib Require Import Zpower.
From stdpp Require Import base list gmap strings.

Local Open Scope Z_scope.

(** ** 32-bit [int] *)

Module Int32.

Definition min_int : Z := - 2 ^ 31.
Definition max_int : Z := 2 ^ 31 - 1.

(** Value of a mathematical integer once stored in an [int].  Signed
    overflow is undefined in ISO C++; the model takes the
    two's-complement result that the usual targets compute. *)
Definition wrap (z : Z) : Z := (z + 2 ^ 31) mod 2 ^ 32 - 2 ^ 31.

Definition in_range (z : Z) : Prop := min_int <= z <= max_int.

Definition sub (a b : Z) : Z := wrap (a - b).
Definition add (a b : Z) : Z := wrap (a + b).
Definition mul (a b : Z) : Z := wrap (a * b).

End Int32.

(** ** binary32 [float] *)

Module F32.

Definition prec : Z := 24.
Definition emax : Z := 128.

Definition float := spec_float.

(** [static_cast<float>(n)] and the implicit [int -> float] conversion:
    round to nearest, ties to even. *)
Definition of_int (n : Z) : float := binary_normalize prec emax n 0 false.

Definition div (x y : float) : float := SFdiv prec emax x y.

(** [x >= y] on floats: false as soon as an operand is NaN. *)
Definition ge (x y : float) : bool := SFleb y x.
Definition le (x y : float) : bool := SFleb x y.

Definition zero : float := S754_zero false.          (* 0.0f *)
Definition one : float := S754_finite false 8388608 (-23).  (* 1.0f *)
Definition nan : float := S754_nan.

End F32.

(** ** Data model *)

(** The pointer [data] is represented by the bytes it points to.  Copies
    of an image handle share that buffer; no function on frames reads or
    writes it. *)
Record image := Image {
  width : Z;
  height : Z;
  format : Z;            (* 0=GRAY  1=RGB  2=BGR *)
  data : list Byte.byte  (* contents of the buffer [data] points to *)
}.

Record box := Box {
  x1 : Z; y1 : Z;
  x2 : Z; y2 : Z;
  type : Z               (* 0=FACE  1=GUN  2=MASK *)
}.

Record frame := Frame {
  img : image;
  boxes : list box
}.

(** ** [calculate_iou] *)

Definition x_left (b1 b2 : box) : Z := Z.max (x1 b1) (x1 b2).
Definition x_right (b1 b2 : box) : Z := Z.min (x2 b1) (x2 b2).
Definition y_top (b1 b2 : box) : Z := Z.max (y1 b1) (y1 b2).
Definition y_bottom (b1 b2 : box) : Z := Z.min (y2 b1) (y2 b2).

(** The test [x_left > x_right || y_bottom < y_top]. *)
Definition no_overlap (b1 b2 : box) : bool :=
  (x_right b1 b2 <? x_left b1 b2) || (y_bottom b1 b2 <? y_top b1 b2).

Definition intersection (b1 b2 : box) : Z :=
  Int32.mul (Int32.sub (x_right b1 b2) (x_left b1 b2))
            (Int32.sub (y_bottom b1 b2) (y_top b1 b2)).

Definition area (b : box) : Z :=
  Int32.mul (Int32.sub (x2 b) (x1 b)) (Int32.sub (y2 b) (y1 b)).

(** [b1_area + b2_area - intersection], still an [int]. *)
Definition union_area (b1 b2 : box) : Z :=
  Int32.sub (Int32.add (area b1) (area b2)) (intersection b1 b2).

Definition calculate_iou (b1 b2 : box) : F32.float :=
  if no_overlap b1 b2 then F32.zero
  else F32.div (F32.of_int (intersection b1 b2))
               (F32.of_int (union_area b1 b2)).

(** [calculate_iou(b1, b2) >= threshold], the identity test shared by
    [frame_clean] and [union_frames]. *)
Definition same_object (threshold : F32.float) (b1 b2 : box) : bool :=
  F32.ge (calculate_iou b1 b2) threshold.

(** ** [rgb2bgr] *)

(** [std::swap(ptr[0], ptr[2])] with [ptr = data + off].  [None] stands for
    an access outside the buffer, which the program gives no meaning to. *)
Definition swap_channels (d : list Byte.byte) (off : nat) : option (list Byte.byte) :=
  match d !! off, d !! (off + 2)%nat with
  | Some c0, Some c2 => Some (<[(off + 2)%nat := c0]> (<[off := c2]> d))
  | _, _ => None
  end.

(** The loop [for (i = 0; i < height * width; ++i) { swap; ptr += 3; }],
    by the number of iterations left. *)
Fixpoint swap_loop (d : list Byte.byte) (off : nat) (steps : nat)
  : option (list Byte.byte) :=
  match steps with
  | O => Some d
  | S steps' =>
      match swap_channels d off with
      | Some d' => swap_loop d' (off + 3)%nat steps'
      | None => None
      end
  end.

(** Number of iterations: none when the [int] product is not positive. *)
Definition pixel_count (im : image) : nat :=
  Z.to_nat (Int32.mul (height im) (width im)).

(** The returned pair is the [bool] result and the image after the call
    ([img] is passed by reference). *)
Definition rgb2bgr (im : image) : option (bool * image) :=
  if format im =? 1 then
    match swap_loop (data im) 0 (pixel_count im) with
    | Some d' => Some (true, Image (width im) (height im) 2 d')
    | None => None
    end
  else Some (false, im).

(** What the conversion does to pixel [i] of buffer [d], giving [d']. *)
Definition pixel_swapped (d d' : list Byte.byte) (i : nat) : Prop :=
  d' !! (3 * i)%nat = d !! (3 * i + 2)%nat /\
  d' !! (3 * i + 1)%nat = d !! (3 * i + 1)%nat /\
  d' !! (3 * i + 2)%nat = d !! (3 * i)%nat.

(** ** [frame_clean] *)

(** Inner loop [for (j = ...; j < size; ++j)] at anchor [i]; [steps] is the
    number of iterations left, [size - j]. *)
Fixpoint clean_inner (bs : list box) (threshold : F32.float) (i j steps : nat)
    (keep : list bool) : list bool :=
  match steps with
  | O => keep
  | S steps' =>
      let keep' :=
        match bs !! i, bs !! j with
        | Some bi, Some bj =>
            if same_object threshold bi bj then <[j := false]> keep else keep
        | _, _ => keep
        end in
      clean_inner bs threshold i (S j) steps' keep'
  end.

(** Outer loop [for (i = ...; i < size; ++i)]; an index whose flag is
    already cleared is skipped. *)
Fixpoint clean_outer (bs : list box) (threshold : F32.float) (i steps : nat)
    (keep : list bool) : list bool :=
  match steps with
  | O => keep
  | S steps' =>
      let keep' :=
        match keep !! i with
        | Some true => clean_inner bs threshold i (S i) (length bs - S i) keep
        | _ => keep
        end in
      clean_outer bs threshold (S i) steps' keep'
  end.

(** Second loop: [cleaned_boxes.push_back(f.boxes[i])] for every kept [i]. *)
Fixpoint collect (bs : list box) (keep : list bool) (i steps : nat)
    (cleaned_boxes : list box) : list box :=
  match steps with
  | O => cleaned_boxes
  | S steps' =>
      let cleaned_boxes' :=
        match keep !! i, bs !! i with
        | Some true, Some b => cleaned_boxes ++ [b]
        | _, _ => cleaned_boxes
        end in
      collect bs keep (S i) steps' cleaned_boxes'
  end.

Definition clean_boxes (bs : list box) (threshold : F32.float) : list box :=
  let n := length bs in
  let keep := clean_outer bs threshold 0 n (replicate n true) in
  collect bs keep 0 n [].

(** [frame_clean] updates [f] in place; the model returns [f] after the call. *)
Definition frame_clean (f : frame) (threshold : F32.float) : frame :=
  Frame (img f) (clean_boxes (boxes f) threshold).

(** *** Functional reading of the two loops *)

(** Flags of a suffix after one pass of the inner loop with anchor [b]. *)
Fixpoint mark (threshold : F32.float) (b : box) (bs : list box)
    (keep : list bool) : list bool :=
  match bs, keep with
  | c :: bs', k :: keep' =>
      (if same_object threshold b c then false else k) :: mark threshold b bs' keep'
  | _, _ => []
  end.

(** Final flags of a suffix. *)
Fixpoint final_flags (threshold : F32.float) (bs : list box)
    (keep : list bool) : list bool :=
  match bs, keep with
  | b :: bs', k :: keep' =>
      if k then true :: final_flags threshold bs' (mark threshold b bs' keep')
      else false :: final_flags threshold bs' keep'
  | _, _ => []
  end.

(** Boxes whose flag is set. *)
Fixpoint select (bs : list box) (keep : list bool) : list box :=
  match bs, keep with
  | b :: bs', k :: keep' => if k then b :: select bs' keep' else select bs' keep'
  | _, _ => []
  end.

(** ** [union_frames] *)

(** The in-place update of [box1] on a match; [type] is left as it is. *)
Definition envelope (box1 box2 : box) : box :=
  Box (Z.min (x1 box1) (x1 box2)) (Z.min (y1 box1) (y1 box2))
      (Z.max (x2 box1) (x2 box2)) (Z.max (y2 box1) (y2 box2))
      (type box1).

(** Inner loop over [result.boxes] for one [box2]: the boxes after the
    loop and the flag [merged]. *)
Fixpoint merge_scan (threshold : F32.float) (rs : list box) (box2 : box)
  : list box * bool :=
  match rs with
  | [] => ([], false)
  | box1 :: rest =>
      if same_object threshold box1 box2 then (envelope box1 box2 :: rest, true)
      else let '(rest', merged) := merge_scan threshold rest box2 in
           (box1 :: rest', merged)
  end.

(** Body of the outer loop. *)
Definition union_step (threshold : F32.float) (rs : list box) (box2 : box)
  : list box :=
  let '(rs', merged) := merge_scan threshold rs box2 in
  if merged then rs' else rs' ++ [box2].

Definition union_boxes (primary secondary : list box) (threshold : F32.float)
  : list box :=
  fold_left (union_step threshold) secondary primary.

(** The returned frame, as a value. *)
Definition union_frames (f1 f2 : frame) (threshold : F32.float) : frame :=
  Frame (img f1) (union_boxes (boxes f1) (boxes f2) threshold).

(** No box of the sequence is the same object as an earlier one. *)
Definition pairwise_apart (threshold : F32.float) (bs : list box) : Prop :=
  forall (i j : nat) bi bj,
    (i < j)%nat -> bs !! i = Some bi -> bs !! j = Some bj ->
    same_object threshold bi bj = false.

(** *** [union_frames] on a store of frames

    [f1] and [f2] are passed by reference: the function receives the
    places of two frame objects, which may be the same place, and builds
    [result] in a place of its own.  The store maps places to frame
    objects; every read and write of the program goes through it. *)
Module Mem.

Definition loc := positive.
Abbreviation heap := (gmap loc frame).

Definition M (A : Type) : Type := heap -> option (A * heap).

Definition ret {A} (a : A) : M A := fun h => Some (a, h).
Definition bind {A B} (m : M A) (k : A -> M B) : M B :=
  fun h => match m h with Some (a, h') => k a h' | None => None end.
Definition fail {A} : M A := fun _ => None.

Definition load (l : loc) : M frame :=
  fun h => match h !! l with Some f => Some (f, h) | None => None end.
Definition store (l : loc) (f : frame) : M unit :=
  fun h => match h !! l with Some _ => Some (tt, <[l := f]> h) | None => None end.
(** A new object, at a place not in use. *)
Definition alloc (f : frame) : M loc :=
  fun h => let l := fresh (dom h) in Some (l, <[l := f]> h).

Notation "'let*' x ':=' m 'in' k" := (bind m (fun x => k))
  (at level 10, x name, m at level 100, k at level 200).

(** Inner loop at index [k] of [result.boxes], [steps] entries left. *)
Fixpoint scan_loop (threshold : F32.float) (result : loc) (box2 : box)
    (k steps : nat) : M bool :=
  match steps with
  | O => ret false
  | S steps' =>
      let* r := load result in
      match boxes r !! k with
      | None => fail
      | Some box1 =>
          if same_object threshold box1 box2 then
            let* _ := store result
                        (Frame (img r) (<[k := envelope box1 box2]> (boxes r))) in
            ret true
          else scan_loop threshold result box2 (S k) steps'
      end
  end.

Definition visit (threshold : F32.float) (result : loc) (box2 : box) : M unit :=
  let* r := load result in
  let* merged := scan_loop threshold result box2 0 (length (boxes r)) in
  if merged then ret tt
  else let* r' := load result in
       store result (Frame (img r') (boxes r' ++ [box2])).

(** Outer loop over [f2.boxes], read in place at every iteration. *)
Fixpoint outer_loop (threshold : F32.float) (f2 result : loc) (k steps : nat)
  : M unit :=
  match steps with
  | O => ret tt
  | S steps' =>
      let* f := load f2 in
      match boxes f !! k with
      | None => fail
      | Some box2 =>
          let* _ := visit threshold result box2 in
          outer_loop threshold f2 result (S k) steps'
      end
  end.

(** Returns the place of the returned frame. *)
Definition union_frames (f1 f2 : loc) (threshold : F32.float) : M loc :=
  let* f := load f1 in
  let* result := alloc f in
  let* g := load f2 in
  let* _ := outer_loop threshold f2 result 0 (length (boxes g)) in
  ret result.

End Mem.

(** ** Auxiliary notions for the statements *)

(** [rounded p m e]: the float of mantissa [m] and exponent [e] is a
    nearest binary32 neighbour of the integer [p], in canonical form.
    Values are compared after scaling by [2 ^ 23], which makes the unit in
    the last place of the binade of [p] the integer [2 ^ (d - 1)]. *)
Definition rounded (p m : positive) (e : Z) : Prop :=
  let d := Z.pos (digits2_pos p) in
  2 ^ 23 <= Z.pos m < 2 ^ 24 /\
  ((e = d - 24 /\
    2 * Z.abs (Z.pos m * 2 ^ (d - 1) - Z.pos p * 2 ^ 23) <= 2 ^ (d - 1))
   \/ (e = d - 23 /\ Z.pos m = 2 ^ 23 /\
       2 * Z.abs (2 ^ 24 * 2 ^ (d - 1) - Z.pos p * 2 ^ 23) <= 2 ^ (d - 1))).

(** A float in the closed interval from [0.0f] to [1.0f]. *)
Definition in_unit (r : F32.float) : Prop :=
  F32.le F32.zero r = true /\ F32.le r F32.one = true.

(** The [int] computations of [calculate_iou] give the mathematical
    values: widths, heights, the two areas and their sum fit in an [int]. *)
Definition fits_int (b1 b2 : box) : Prop :=
  Int32.in_range (x2 b1 - x1 b1) /\ Int32.in_range (y2 b1 - y1 b1) /\
  Int32.in_range (x2 b2 - x1 b2) /\ Int32.in_range (y2 b2 - y1 b2) /\
  Int32.in_range ((x2 b1 - x1 b1) * (y2 b1 - y1 b1)) /\
  Int32.in_range ((x2 b2 - x1 b2) * (y2 b2 - y1 b2)) /\
  Int32.in_range ((x2 b1 - x1 b1) * (y2 b1 - y1 b1)
                  + (x2 b2 - x1 b2) * (y2 b2 - y1 b2)).

(** Some axis on which the two boxes have no coordinate in common. *)
Definition separated (b1 b2 : box) : Prop :=
  x2 b1 < x1 b2 \/ x2 b2 < x1 b1 \/ y2 b1 < y1 b2 \/ y2 b2 < y1 b1.

(** ** Further notions for the statements *)

(** [r] contains [b]: every corner of [b] lies within [r]. *)
Definition encloses (r b : box) : Prop :=
  x1 r <= x1 b /\ y1 r <= y1 b /\ x2 b <= x2 r /\ y2 b <= y2 r.

(** Every entry of [rs] is still there in [rs'], at the same index and
    with the same [type], possibly enlarged. *)
Definition grows (rs rs' : list box) : Prop :=
  forall (i : nat) r, rs !! i = Some r ->
    exists r', rs' !! i = Some r' /\ type r' = type r /\ encloses r' r.

(** No box of [b] is the same object as a box of [a] or as an earlier box
    of [b]. *)
Definition cross_apart (threshold : F32.float) (a b : list box) : Prop :=
  forall (j : nat) bj, b !! j = Some bj ->
    Forall (fun c => same_object threshold c bj = false) (a ++ take j b).

(** A box with positive extent on both axes whose [int] area is not 0. *)
Definition proper (b : box) : Prop :=
  x1 b < x2 b /\ y1 b < y2 b /\ area b <> 0.

(** Every coordinate is between 0 and 32767. *)
Definition small_coordinates (b : box) : Prop :=
  0 <= x1 b <= 32767 /\ 0 <= y1 b <= 32767 /\
  0 <= x2 b <= 32767 /\ 0 <= y2 b <= 32767.

(** An RGB image of 46341 x 46341 pixels with a buffer of three bytes for
    each of them: the first pixel is (1, 2, 3), all others are black.  Its
    pixel count, 2147488281, is just above the largest [int]. *)
Definition overflow_buffer : list Byte.byte :=
  Byte.x01 :: Byte.x02 :: Byte.x03
  :: replicate (Z.to_nat (3 * (46341 * 46341) - 3)) Byte.x00.

Definition overflow_image : image := Image 46341 46341 1 overflow_buffer.

(** ** The test programs and [main]

    An [assert] that fails ends the program: a test returns [None] then,
    and otherwise the lines it prints.  A [double] literal passed for a
    [float] parameter is rounded to binary32 at the call. *)

Definition double_to_float (x : spec_float) : F32.float :=
  match x with
  | S754_finite s m e => binary_round F32.prec F32.emax s m e
  | _ => x
  end.

Definition double_0_3 : spec_float :=
  S754_finite false 5404319552844595 (-54).             (* 0.3 *)
Definition double_0_1 : spec_float :=
  S754_finite false 7205759403792794 (-56).             (* 0.1 *)
Definition float_7 : F32.float := S754_finite false 14680064 (-21).  (* 7.0f *)

Definition assert (c : bool) : option unit := if c then Some tt else None.

(** [for (i = ...; i < 12; ++i) assert(data[i] == expected_data[i])]. *)
Fixpoint assert_bytes (d expected : list Byte.byte) (i steps : nat)
  : option unit :=
  match steps with
  | O => Some tt
  | S steps' =>
      match d !! i, expected !! i with
      | Some x, Some y =>
          _ ← assert (Byte.eqb x y); assert_bytes d expected (S i) steps'
      | _, _ => None
      end
  end.

Definition test_rgb2bgr : option (list string) :=
  let image_data :=
    [Byte.xff; Byte.x00; Byte.x00; Byte.x00; Byte.xff; Byte.x00;
     Byte.x00; Byte.x00; Byte.xff; Byte.xff; Byte.xff; Byte.xff] in
  '(r, im) ← rgb2bgr (Image 2 2 1 image_data);
  _ ← assert (bool_decide (r = true));
  _ ← assert (format im =? 2);
  let expected_data :=
    [Byte.x00; Byte.x00; Byte.xff; Byte.x00; Byte.xff; Byte.x00;
     Byte.xff; Byte.x00; Byte.x00; Byte.xff; Byte.xff; Byte.xff] in
  _ ← assert_bytes (data im) expected_data 0 12;
  Some ["test_rgb2bgr passed!"].

Definition test_calculate_iou : option (list string) :=
  let b1 := Box 0 0 2 2 0 in
  let b2 := Box 1 1 3 3 0 in
  let b3 := Box 4 4 6 6 0 in
  _ ← assert (SFeqb (calculate_iou b1 b2) (F32.div F32.one float_7));
  _ ← assert (SFeqb (calculate_iou b1 b3) F32.zero);
  Some ["test_calculate_iou passed!"].

(** [frame f;] leaves [f.img] uninitialised: [garbage] is whatever it
    holds. *)
Definition test_frame_clean (garbage : image) : option (list string) :=
  let f := Frame garbage [Box 0 0 4 4 0; Box 1 1 5 5 0; Box 5 5 9 9 0] in
  let f := frame_clean f (double_to_float double_0_3) in
  _ ← assert (bool_decide (length (boxes f) = 2%nat));
  Some ["test_frame_clean passed!"].

Definition test_union_frames (garbage1 garbage2 : image)
  : option (list string) :=
  let f1 := Frame garbage1 [Box 0 0 4 4 0; Box 5 5 9 9 0] in
  let f2 := Frame garbage2 [Box 2 2 6 6 0; Box 10 10 14 14 0] in
  let result := union_frames f1 f2 (double_to_float double_0_1) in
  _ ← assert (bool_decide (length (boxes result) = 3%nat));
  Some ["test_union_frames passed!"].

(** The printed lines and the exit status. *)
Definition main (garbage1 garbage2 garbage3 : image)
  : option (list string * Z) :=
  o1 ← test_rgb2bgr;
  o2 ← test_calculate_iou;
  o3 ← test_frame_clean garbage1;
  o4 ← test_union_frames garbage2 garbage3;
  Some (o1 ++ o2 ++ o3 ++ o4, 0).

(** * Properties *)

(** ** binary32 arithmetic

    Facts about [spec_float] at precision 24 that the claims rest on:
    conversion of an [int] rounds to a nearest neighbour and is monotone,
    and the quotient of two such numbers, the smaller over the larger,
    does not exceed one. *)

Lemma digits2_pos_bounds p :
  2 ^ (Z.pos (digits2_pos p) - 1) <= Z.pos p < 2 ^ Z.pos (digits2_pos p).
Proof.
  induction p as [p IH|p IH|]; cbn [digits2_pos]; [| |cbn; lia].
  all: rewrite Pos2Z.inj_succ; set (d := Z.pos (digits2_pos p)) in *.
  all: replace (Z.succ d - 1) with (Z.succ (d - 1)) by lia.
  all: rewrite !Z.pow_succ_r by (unfold d; lia); lia.
Qed.

Lemma digits2_pos_unique p k :
  2 ^ (k - 1) <= Z.pos p < 2 ^ k -> Z.pos (digits2_pos p) = k.
Proof.
  intros [Hl Hu]. pose proof (digits2_pos_bounds p) as [Bl Bu].
  assert (0 < k).
  { destruct (Z.compare_spec k 0) as [E|E|E]; [subst; cbn in Hu; lia| |lia].
    rewrite Z.pow_neg_r in Hu by lia. lia. }
  destruct (Z_lt_le_dec (Z.pos (digits2_pos p)) k) as [L|L].
  - assert (2 ^ Z.pos (digits2_pos p) <= 2 ^ (k - 1)) by (apply Z.pow_le_mono_r; lia). lia.
  - destruct (Z_lt_le_dec k (Z.pos (digits2_pos p))) as [L'|L']; [|lia].
    assert (2 ^ k <= 2 ^ (Z.pos (digits2_pos p) - 1)) by (apply Z.pow_le_mono_r; lia). lia.
Qed.

Lemma iter_pos_nat {A} (f : A -> A) n x :
  SpecFloat.iter_pos f n x = Nat.iter (Pos.to_nat n) f x.
Proof.
  revert x. induction n as [n IH|n IH|]; intros x; cbn [SpecFloat.iter_pos].
  - rewrite !IH. rewrite Pos2Nat.inj_xI.
    replace (S (2 * Pos.to_nat n))%nat with (Pos.to_nat n + (Pos.to_nat n + 1))%nat by lia.
    rewrite !Nat.iter_add. reflexivity.
  - rewrite !IH. rewrite Pos2Nat.inj_xO.
    replace (2 * Pos.to_nat n)%nat with (Pos.to_nat n + Pos.to_nat n)%nat by lia.
    rewrite Nat.iter_add. reflexivity.
  - reflexivity.
Qed.

Lemma shr_1_m mrs : 0 <= shr_m mrs -> shr_m (shr_1 mrs) = shr_m mrs / 2.
Proof.
  destruct mrs as [m r s]. cbn [shr_m]. intros Hm.
  destruct m as [|[p|p|]|p]; cbn [shr_1 shr_m].
  - reflexivity.
  - apply Z.div_unique with 1; lia.
  - apply Z.div_unique with 0; lia.
  - reflexivity.
  - lia.
Qed.

Lemma shr_1_r mrs : 0 <= shr_m mrs -> shr_r (shr_1 mrs) = Z.odd (shr_m mrs).
Proof.
  destruct mrs as [m r s]. cbn [shr_m]. intros Hm.
  destruct m as [|[p|p|]|p]; cbn [shr_1 shr_r]; try reflexivity; lia.
Qed.

Lemma shr_1_s mrs : shr_s (shr_1 mrs) = shr_r mrs || shr_s mrs.
Proof.
  destruct mrs as [m r s].
  destruct m as [|[p|p|]|[p|p|]]; reflexivity.
Qed.

Lemma shr_iter_m (k : nat) mrs :
  0 <= shr_m mrs ->
  shr_m (Nat.iter k shr_1 mrs) = shr_m mrs / 2 ^ Z.of_nat k.
Proof.
  intros Hm. induction k as [|k IH].
  - cbn. now rewrite Z.div_1_r.
  - rewrite Nat.iter_succ. rewrite shr_1_m.
    + rewrite IH, Nat2Z.inj_succ, Z.pow_succ_r by lia.
      rewrite Z.div_div by lia. f_equal. lia.
    + rewrite IH. apply Z.div_pos; lia.
Qed.

Lemma mod_pow2_succ m k :
  0 <= k ->
  m mod 2 ^ (k + 1) = m mod 2 ^ k + 2 ^ k * (if Z.odd (m / 2 ^ k) then 1 else 0).
Proof.
  intros Hk. rewrite Z.pow_add_r, Z.pow_1_r by lia.
  rewrite Z.rem_mul_r by lia. now rewrite Zmod_odd.
Qed.

(** What the round and sticky bits record after shifting [m0] right by
    [k + 1] positions. *)
Lemma shr_iter_bits (k : nat) m0 :
  0 <= m0 ->
  let mrs := Nat.iter (S k) shr_1 (Build_shr_record m0 false false) in
  let K := Z.of_nat k in
  (if shr_r mrs then 2 ^ K <= m0 mod 2 ^ (K + 1) else m0 mod 2 ^ (K + 1) < 2 ^ K)
  /\ (shr_s mrs = false -> m0 mod 2 ^ K = 0).
Proof.
  intros Hm. induction k as [|k IH].
  - rewrite Nat.iter_succ. cbn [Nat.iter nat_rect].
    rewrite shr_1_r, shr_1_s by (cbn; lia). cbn [shr_m shr_r shr_s].
    change (Z.of_nat 0) with 0. cbn [Z.add Z.pow Z.pow_pos Pos.iter Z.mul Pos.mul].
    rewrite Zmod_odd, Z.mod_1_r. split; [destruct (Z.odd m0); lia | reflexivity].
  - cbn zeta in IH |- *. set (prev := Nat.iter (S k) shr_1 _) in *.
    rewrite Nat.iter_succ. fold prev.
    assert (Hprev : shr_m prev = m0 / 2 ^ (Z.of_nat k + 1)).
    { unfold prev. rewrite shr_iter_m by (cbn; lia). cbn [shr_m]. f_equal. f_equal. lia. }
    assert (0 <= shr_m prev) by (rewrite Hprev; apply Z.div_pos; lia).
    rewrite shr_1_r, shr_1_s by assumption. rewrite Hprev.
    rewrite Nat2Z.inj_succ. unfold Z.succ.
    destruct IH as [IHr IHs].
    pose proof (mod_pow2_succ m0 (Z.of_nat k + 1) ltac:(lia)) as E.
    pose proof (mod_pow2_succ m0 (Z.of_nat k) ltac:(lia)) as E'.
    pose proof (Z.mod_pos_bound m0 (2 ^ (Z.of_nat k + 1)) ltac:(lia)) as B.
    pose proof (Z.mod_pos_bound m0 (2 ^ (Z.of_nat k)) ltac:(lia)) as B'.
    assert (0 < 2 ^ Z.of_nat k) by lia.
    split.
    + destruct (Z.odd (m0 / 2 ^ (Z.of_nat k + 1))); lia.
    + intros Hs. apply orb_false_iff in Hs as [Hr Hs]. rewrite Hr in IHr.
      specialize (IHs Hs). destruct (Z.odd (m0 / 2 ^ Z.of_nat k)); lia.
Qed.

Lemma round_nearest_even_bounds m l :
  m <= round_nearest_even m l <= m + 1.
Proof.
  unfold round_nearest_even. destruct l as [|[]]; try destruct (Z.even m); lia.
Qed.

(** Rounding after an exact right shift by [n >= 1] is to nearest. *)
Lemma shr_round_nearest m0 e (n : positive) :
  0 <= m0 ->
  let mrs := fst (shr (Build_shr_record m0 false false) e (Z.pos n)) in
  let m' := round_nearest_even (shr_m mrs) (loc_of_shr_record mrs) in
  shr_m mrs = m0 / 2 ^ Z.pos n /\
  2 * Z.abs (m' * 2 ^ Z.pos n - m0) <= 2 ^ Z.pos n.
Proof.
  intros Hm. cbn [shr fst]. rewrite iter_pos_nat.
  destruct (Pos2Nat.is_succ n) as [k Hk]. rewrite Hk.
  assert (HK : Z.pos n = Z.of_nat k + 1) by lia.
  pose proof (shr_iter_bits k m0 Hm) as [Hr Hs]. cbn zeta in Hr, Hs.
  pose proof (shr_iter_m (S k) (Build_shr_record m0 false false) ltac:(cbn; lia)) as Hq.
  cbn [shr_m] in Hq. replace (Z.of_nat (S k)) with (Z.pos n) in Hq by lia.
  set (mrs := Nat.iter (S k) shr_1 _) in *. cbn zeta.
  split; [exact Hq|]. rewrite Hq, HK. rewrite <- HK.
  rewrite <- HK in Hr.
  assert (P2 : 2 ^ Z.pos n = 2 * 2 ^ Z.of_nat k).
  { rewrite HK, Z.pow_add_r, Z.pow_1_r by lia. lia. }
  pose proof (Z.div_mod m0 (2 ^ Z.pos n) ltac:(lia)) as D.
  pose proof (Z.mod_pos_bound m0 (2 ^ Z.pos n) ltac:(lia)) as B.
  assert (0 < 2 ^ Z.of_nat k) by lia.
  pose proof (mod_pow2_succ m0 (Z.of_nat k) ltac:(lia)) as E.
  rewrite <- HK in E.
  pose proof (Z.mod_pos_bound m0 (2 ^ Z.of_nat k) ltac:(lia)) as B'.
  set (q := m0 / 2 ^ Z.pos n) in *. set (r := m0 mod 2 ^ Z.pos n) in *.
  set (l := m0 mod 2 ^ Z.of_nat k) in *.
  set (h := 2 ^ Z.of_nat k) in *.
  destruct mrs as [m r0 s0]. cbn [shr_m shr_r shr_s loc_of_shr_record] in *.
  unfold round_nearest_even.
  destruct r0, s0; cbn [loc_of_shr_record].
  - nia.
  - specialize (Hs eq_refl). destruct (Z.odd _), (Z.even q); nia.
  - nia.
  - specialize (Hs eq_refl). destruct (Z.odd _); nia.
Qed.


Lemma shr_record_of_loc_m m l : shr_m (shr_record_of_loc m l) = m.
Proof. destruct l as [|[]]; reflexivity. Qed.

Lemma loc_of_shr_record_of_loc m l :
  loc_of_shr_record (shr_record_of_loc m l) = l.
Proof. destruct l as [|[]]; reflexivity. Qed.

Lemma shr_snd mrs e n : 0 <= n -> snd (shr mrs e n) = e + n.
Proof. destruct n; cbn; lia. Qed.

Lemma shr_fst_m mrs e n :
  0 <= shr_m mrs -> 0 <= n -> shr_m (fst (shr mrs e n)) = shr_m mrs / 2 ^ n.
Proof.
  intros Hm Hn. destruct n as [|n|n]; cbn [shr fst].
  - now rewrite Z.div_1_r.
  - rewrite iter_pos_nat, shr_iter_m by assumption. f_equal. f_equal. lia.
  - lia.
Qed.

Lemma shr_fexp_F32 (p : positive) e l :
  24 <= Z.pos (digits2_pos p) -> -149 <= e ->
  shr_fexp 24 128 (Z.pos p) e l
  = shr (shr_record_of_loc (Z.pos p) l) e (Z.pos (digits2_pos p) - 24).
Proof.
  intros Hd He. unfold shr_fexp, fexp, emin. cbn [Zdigits2]. f_equal. lia.
Qed.

(** Last step of [binary_round_aux]: renormalise after a possible carry. *)
Lemma round_finish s m e :
  2 ^ 23 <= m <= 2 ^ 24 -> -149 <= e -> e + 1 <= 104 ->
  (let '(mrs, e') := shr_fexp 24 128 m e loc_Exact in
   match shr_m mrs with
   | Z0 => S754_zero s
   | Zpos m => if e' <=? 128 - 24 then S754_finite s m e' else S754_infinity s
   | _ => S754_nan
   end)
  = if m <? 2 ^ 24 then S754_finite s (Z.to_pos m) e
    else S754_finite s (2 ^ 23) (e + 1).
Proof.
  intros Hm He He'. destruct (Z.ltb_spec m (2 ^ 24)) as [L|L].
  - destruct m as [|p|p]; try lia.
    assert (D : Z.pos (digits2_pos p) = 24) by (apply digits2_pos_unique; lia).
    rewrite shr_fexp_F32 by lia. rewrite D. cbn [Z.sub Z.add Z.opp Z.pos_sub shr].
    change (24 - 24) with 0. cbn [shr shr_record_of_loc shr_m].
    destruct (Z.leb_spec e (128 - 24)); [reflexivity | lia].
  - assert (m = 16777216) by lia. subst m.
    unfold shr_fexp, fexp, emin.
    change (Zdigits2 16777216) with 25.
    replace (Z.max (25 + e - 24) (3 - 128 - 24) - e) with 1 by lia.
    cbn [shr shr_record_of_loc SpecFloat.iter_pos shr_1 shr_m].
    destruct (Z.leb_spec (e + 1) (128 - 24)); [reflexivity | lia].
Qed.

(** [binary_round_aux] on a mantissa of at least 24 digits: the result is
    the truncated mantissa or its successor, renormalised. *)
Lemma round_aux_spec s (p : positive) e l n :
  n = Z.pos (digits2_pos p) - 24 ->
  0 <= n -> -149 <= e -> e + n + 1 <= 104 ->
  exists m : Z,
    Z.pos p / 2 ^ n <= m <= Z.pos p / 2 ^ n + 1 /\
    (l = loc_Exact -> 2 * Z.abs (m * 2 ^ n - Z.pos p) <= 2 ^ n) /\
    binary_round_aux 24 128 s (Z.pos p) e l
    = if m <? 2 ^ 24 then S754_finite s (Z.to_pos m) (e + n)
      else S754_finite s (2 ^ 23) (e + n + 1).
Proof.
  intros En Hn He He'.
  pose proof (digits2_pos_bounds p) as [Bl Bu].
  assert (Hq : 2 ^ 23 <= Z.pos p / 2 ^ n < 2 ^ 24).
  { assert (E : Z.pos (digits2_pos p) = n + 24) by lia.
    rewrite E in Bl, Bu.
    replace (n + 24 - 1) with (n + 23) in Bl by lia.
    rewrite Z.pow_add_r in Bl, Bu by lia.
    assert (0 < 2 ^ n) by (apply Z.pow_pos_nonneg; lia).
    split.
    - apply Z.div_le_lower_bound; lia.
    - apply Z.div_lt_upper_bound; lia. }
  unfold binary_round_aux. rewrite shr_fexp_F32 by lia. rewrite <- En.
  set (sh := shr (shr_record_of_loc (Z.pos p) l) e n).
  assert (Hs : snd sh = e + n) by (apply shr_snd; lia).
  assert (Hmq : shr_m (fst sh) = Z.pos p / 2 ^ n).
  { unfold sh. rewrite shr_fst_m by (rewrite ?shr_record_of_loc_m; lia).
    now rewrite shr_record_of_loc_m. }
  set (m := round_nearest_even (shr_m (fst sh)) (loc_of_shr_record (fst sh))).
  pose proof (round_nearest_even_bounds (shr_m (fst sh)) (loc_of_shr_record (fst sh))) as Bm.
  fold m in Bm. rewrite Hmq in Bm.
  exists m. split; [exact Bm|]. split.
  - intros ->. unfold m, sh. cbn [shr_record_of_loc].
    destruct n as [|np|np]; [| |lia].
    + cbn [shr fst shr_m loc_of_shr_record round_nearest_even]. lia.
    + apply (shr_round_nearest (Z.pos p) e np). lia.
  - destruct sh as [mrs e1] eqn:Esh. cbn [fst snd] in *. subst e1.
    fold m. apply round_finish; lia.
Qed.

Lemma new_location_0 n : new_location n 0 = loc_Exact.
Proof.
  unfold new_location, new_location_even, new_location_odd.
  destruct (Z.even n); reflexivity.
Qed.

Lemma div_self s m e :
  F32.div (S754_finite s m e) (S754_finite s m e) = F32.one.
Proof.
  unfold F32.div, SFdiv, SFdiv_core_binary.
  cbn [Zdigits2].
  replace (Z.pos (digits2_pos m) + e - (Z.pos (digits2_pos m) + e)) with 0 by lia.
  replace (e - e) with 0 by lia.
  change (Z.min (fexp F32.prec F32.emax 0) 0) with (-24).
  change (0 - -24) with 24.
  cbv iota beta.
  assert (H : Z.div_eucl (Z.shiftl (Z.pos m) 24) (Z.pos m) = (2 ^ 24, 0)).
  { rewrite Z.shiftl_mul_pow2 by lia.
    pose proof (Z.div_eucl_eq (Z.pos m * 2 ^ 24) (Z.pos m) ltac:(lia)) as E.
    pose proof (Z.mod_pos_bound (Z.pos m * 2 ^ 24) (Z.pos m) ltac:(lia)) as B.
    unfold Z.modulo, Z.div in *.
    destruct (Z.div_eucl (Z.pos m * 2 ^ 24) (Z.pos m)) as [q r].
    assert (q = 2 ^ 24) by nia. subst q. f_equal. lia. }
  rewrite H. rewrite new_location_0. rewrite xorb_nilpotent. reflexivity.
Qed.

Lemma binary_round_spec s (p : positive) :
  Z.pos p < 2 ^ 32 ->
  exists m e, binary_round 24 128 s p 0 = S754_finite s m e /\ rounded p m e.
Proof.
  intros Hp. pose proof (digits2_pos_bounds p) as [Bl Bu].
  set (d := Z.pos (digits2_pos p)) in *.
  assert (Hd : 1 <= d <= 32).
  { split; [unfold d; lia|]. destruct (Z_lt_le_dec 32 d) as [L|L]; [|lia].
    assert (2 ^ 32 <= 2 ^ (d - 1)) by (apply Z.pow_le_mono_r; lia). lia. }
  unfold binary_round, fexp, emin. fold d.
  replace (Z.max (d + 0 - 24) (3 - 128 - 24)) with (d - 24) by lia.
  unfold shl_align. replace (d - 24 - 0) with (d - 24) by lia.
  destruct (d - 24) as [|n|n] eqn:En.
  - (* exactly 24 digits *)
    destruct (round_aux_spec s p 0 loc_Exact 0) as (m & Bm & Hn & E); fold d; try lia.
    specialize (Hn eq_refl). rewrite Z.pow_0_r, Z.div_1_r in *.
    assert (m = Z.pos p) by lia. subst m.
    replace (d - 1) with 23 in Bl by lia. replace d with 24 in Bu by lia.
    destruct (Z.ltb_spec (Z.pos p) (2 ^ 24)); [|lia].
    exists p, 0. split; [exact E|]. unfold rounded. fold d.
    split; [lia|]. left. split; [lia|]. replace (d - 1) with 23 by lia. lia.
  - (* more than 24 digits: the low bits are rounded away *)
    destruct (round_aux_spec s p 0 loc_Exact (Z.pos n)) as (m & Bm & Hn & E); fold d; try lia.
    specialize (Hn eq_refl).
    assert (Hq : 2 ^ 23 <= Z.pos p / 2 ^ Z.pos n < 2 ^ 24).
    { assert (Ed : d = Z.pos n + 24) by lia. rewrite Ed in Bl, Bu.
      replace (Z.pos n + 24 - 1) with (Z.pos n + 23) in Bl by lia.
      rewrite Z.pow_add_r in Bl, Bu by lia.
      assert (0 < 2 ^ Z.pos n) by (apply Z.pow_pos_nonneg; lia).
      split; [apply Z.div_le_lower_bound | apply Z.div_lt_upper_bound]; lia. }
    assert (Pd : 2 ^ (d - 1) = 2 ^ Z.pos n * 2 ^ 23).
    { replace (d - 1) with (Z.pos n + 23) by lia. now rewrite Z.pow_add_r by lia. }
    assert (0 < 2 ^ Z.pos n) by (apply Z.pow_pos_nonneg; lia).
    destruct (Z.ltb_spec m (2 ^ 24)) as [L|L].
    + exists (Z.to_pos m), (0 + Z.pos n). split; [exact E|].
      unfold rounded. fold d. rewrite Z2Pos.id by lia.
      split; [lia|]. left. split; [lia|]. rewrite Pd.
      replace (m * (2 ^ Z.pos n * 2 ^ 23) - Z.pos p * 2 ^ 23)
        with ((m * 2 ^ Z.pos n - Z.pos p) * 2 ^ 23) by ring.
      rewrite Z.abs_mul. change (Z.abs (2 ^ 23)) with (2 ^ 23). nia.
    + assert (m = 2 ^ 24) by lia. subst m.
      exists (2 ^ 23)%positive, (0 + Z.pos n + 1). split; [exact E|].
      unfold rounded. fold d.
      split; [lia|]. right. split; [lia|]. split; [reflexivity|]. rewrite Pd.
      replace (2 ^ 24 * (2 ^ Z.pos n * 2 ^ 23) - Z.pos p * 2 ^ 23)
        with ((2 ^ 24 * 2 ^ Z.pos n - Z.pos p) * 2 ^ 23) by ring.
      rewrite Z.abs_mul. change (Z.abs (2 ^ 23)) with (2 ^ 23). nia.
  - (* fewer than 24 digits: the mantissa is shifted left, exactly *)
    fold (shift_pos n p).
    pose proof (shift_pos_correct n p) as Sh.
    change (Z.pow_pos 2 n) with (2 ^ Z.pos n) in Sh.
    assert (Ed : d = 24 - Z.pos n) by lia.
    assert (P23 : 2 ^ 23 = 2 ^ Z.pos n * 2 ^ (d - 1)).
    { rewrite <- Z.pow_add_r by lia. f_equal. lia. }
    assert (P24 : 2 ^ 24 = 2 ^ Z.pos n * 2 ^ d).
    { rewrite <- Z.pow_add_r by lia. f_equal. lia. }
    assert (0 < 2 ^ Z.pos n) by (apply Z.pow_pos_nonneg; lia).
    assert (Bs : 2 ^ 23 <= Z.pos (shift_pos n p) < 2 ^ 24) by nia.
    assert (D : Z.pos (digits2_pos (shift_pos n p)) = 24)
      by (apply digits2_pos_unique; lia).
    destruct (round_aux_spec s (shift_pos n p) (Z.neg n) loc_Exact 0)
      as (m & Bm & Hn & E); rewrite ?D; try lia.
    specialize (Hn eq_refl). rewrite Z.pow_0_r, Z.div_1_r in *.
    assert (m = Z.pos (shift_pos n p)) by lia. subst m.
    destruct (Z.ltb_spec (Z.pos (shift_pos n p)) (2 ^ 24)); [|lia].
    rewrite Pos2Z.id in E.
    exists (shift_pos n p), (Z.neg n + 0). split; [exact E|].
    unfold rounded. fold d. split; [lia|]. left. split; [lia|].
    rewrite Sh. rewrite P23.
    replace (2 ^ Z.pos n * Z.pos p * 2 ^ (d - 1)
             - Z.pos p * (2 ^ Z.pos n * 2 ^ (d - 1))) with 0 by ring.
    cbn [Z.abs]. assert (0 < 2 ^ (d - 1)) by (apply Z.pow_pos_nonneg; lia). lia.
Qed.


Lemma digits2_pos_mono p1 p2 :
  Z.pos p1 <= Z.pos p2 -> Z.pos (digits2_pos p1) <= Z.pos (digits2_pos p2).
Proof.
  intros H. pose proof (digits2_pos_bounds p1) as [L1 _].
  pose proof (digits2_pos_bounds p2) as [_ U2].
  destruct (Z_lt_le_dec (Z.pos (digits2_pos p2)) (Z.pos (digits2_pos p1)))
    as [C|C]; [|lia].
  assert (2 ^ Z.pos (digits2_pos p2) <= 2 ^ (Z.pos (digits2_pos p1) - 1))
    by (apply Z.pow_le_mono_r; lia).
  lia.
Qed.

(** Rounding to nearest is monotone, also across binades. *)
Lemma rounded_mono p1 p2 m1 e1 m2 e2 :
  Z.pos p1 < Z.pos p2 -> rounded p1 m1 e1 -> rounded p2 m2 e2 ->
  e1 < e2 \/ (e1 = e2 /\ Z.pos m1 <= Z.pos m2).
Proof.
  intros Hlt [B1 R1] [B2 R2].
  pose proof (digits2_pos_mono p1 p2 ltac:(lia)) as Hd.
  set (d1 := Z.pos (digits2_pos p1)) in *.
  set (d2 := Z.pos (digits2_pos p2)) in *.
  destruct (Z.eq_dec d1 d2) as [Ed|Nd].
  - rewrite <- Ed in R2.
    assert (Ha : 0 < 2 ^ (d1 - 1)) by (apply Z.pow_pos_nonneg; unfold d1; lia).
    set (a := 2 ^ (d1 - 1)) in *.
    destruct R1 as [[E1 N1]|(E1 & M1 & N1)], R2 as [[E2 N2]|(E2 & M2 & N2)].
    + right. split; [lia|].
      destruct (Z_lt_le_dec (Z.pos m2) (Z.pos m1)) as [C|C]; [exfalso; nia|lia].
    + left. lia.
    + exfalso. nia.
    + right. lia.
  - destruct R1 as [[E1 N1]|(E1 & M1 & N1)], R2 as [[E2 N2]|(E2 & M2 & N2)]; lia.
Qed.

Lemma finite_in_unit m e :
  e < -23 \/ (e = -23 /\ Z.pos m <= 2 ^ 23) ->
  in_unit (S754_finite false m e).
Proof.
  intros H. split; [reflexivity|].
  unfold F32.le, SFleb, F32.one, SFcompare.
  destruct H as [H|[-> H]].
  - apply Z.compare_lt_iff in H. now rewrite H.
  - change (-23 ?= -23) with Eq. cbv iota.
    change (PosDef.Pos.compare_cont Eq m 8388608) with (Pos.compare m 8388608).
    destruct (Pos.compare_spec m 8388608); try reflexivity. lia.
Qed.

(** Quotient of two normal binary32 numbers [x <= y]: at most one. *)
Lemma div_normal_le_one m1 e1 m2 e2 :
  2 ^ 23 <= Z.pos m1 < 2 ^ 24 -> 2 ^ 23 <= Z.pos m2 < 2 ^ 24 ->
  -23 <= e1 <= 9 -> -23 <= e2 <= 9 ->
  e1 < e2 \/ (e1 = e2 /\ Z.pos m1 <= Z.pos m2) ->
  in_unit (F32.div (S754_finite false m1 e1) (S754_finite false m2 e2)).
Proof.
  intros B1 B2 He1 He2 Hle.
  destruct (Z.eq_dec e1 e2) as [Ee|Ne];
    [destruct (Pos.eq_dec m1 m2) as [Em|Nm]|].
  { subst. rewrite div_self. split; reflexivity. }
  all: unfold F32.div, SFdiv, SFdiv_core_binary; cbn [Zdigits2 xorb];
    rewrite (digits2_pos_unique m1 24), (digits2_pos_unique m2 24) by lia;
    unfold fexp, emin, F32.prec, F32.emax;
    replace (Z.min (Z.max (24 + e1 - (24 + e2) - 24) (3 - 128 - 24)) (e1 - e2))
      with (e1 - e2 - 24) by lia;
    replace (e1 - e2 - (e1 - e2 - 24)) with 24 by lia;
    cbv iota beta; rewrite Z.shiftl_mul_pow2 by lia;
    pose proof (Z.div_eucl_eq (Z.pos m1 * 2 ^ 24) (Z.pos m2) ltac:(lia)) as E;
    pose proof (Z.mod_pos_bound (Z.pos m1 * 2 ^ 24) (Z.pos m2) ltac:(lia)) as B;
    unfold Z.modulo, Z.div in E, B;
    destruct (Z.div_eucl (Z.pos m1 * 2 ^ 24) (Z.pos m2)) as [q r];
    assert (Bq : 2 ^ 23 <= q < 2 ^ 25) by nia;
    destruct q as [|q|q]; try lia.
  - (* same exponent, smaller mantissa *)
    assert (Z.pos m1 < Z.pos m2) by (assert (Z.pos m1 <> Z.pos m2) by congruence; lia).
    assert (Z.pos q < 2 ^ 24) by nia.
    destruct (round_aux_spec false q (e1 - e2 - 24) (new_location (Z.pos m2) r) 0)
      as (m & Bm & _ & ->); rewrite ?(digits2_pos_unique q 24); try lia.
    rewrite Z.pow_0_r, Z.div_1_r in Bm.
    destruct (Z.ltb_spec m (2 ^ 24)); apply finite_in_unit.
    + left. lia.
    + right. split; [lia|]. change (Z.pos (2 ^ 23)) with (2 ^ 23). lia.
  - (* smaller exponent *)
    assert (e1 < e2) by lia.
    destruct (Z_lt_le_dec (Z.pos q) (2 ^ 24)) as [Q|Q].
    + destruct (round_aux_spec false q (e1 - e2 - 24) (new_location (Z.pos m2) r) 0)
        as (m & Bm & _ & ->); rewrite ?(digits2_pos_unique q 24); try lia.
      destruct (Z.ltb_spec m (2 ^ 24)); apply finite_in_unit; left; lia.
    + destruct (round_aux_spec false q (e1 - e2 - 24) (new_location (Z.pos m2) r) 1)
        as (m & Bm & _ & ->); rewrite ?(digits2_pos_unique q 25); try lia.
      destruct (Z.ltb_spec m (2 ^ 24)); apply finite_in_unit.
      * left. lia.
      * destruct (Z.eq_dec (e1 - e2 - 24 + 1 + 1) (-23)) as [->|]; [right|left; lia].
        split; [reflexivity|]. change (Z.pos (2 ^ 23)) with (2 ^ 23). lia.
Qed.

Lemma of_int_pos (p : positive) :
  Z.pos p < 2 ^ 32 ->
  exists m e, F32.of_int (Z.pos p) = S754_finite false m e /\ rounded p m e.
Proof. intros H. exact (binary_round_spec false p H). Qed.

Lemma of_int_neg (p : positive) :
  Z.pos p < 2 ^ 32 ->
  exists m e, F32.of_int (Z.neg p) = S754_finite true m e /\ rounded p m e.
Proof. intros H. exact (binary_round_spec true p H). Qed.

Lemma rounded_exponent p m e :
  Z.pos p < 2 ^ 32 -> rounded p m e -> -23 <= e <= 9.
Proof.
  intros Hp [_ R]. pose proof (digits2_pos_bounds p) as [Bl Bu].
  set (d := Z.pos (digits2_pos p)) in *.
  assert (Hd : 1 <= d <= 32).
  { split; [unfold d; lia|]. destruct (Z_lt_le_dec 32 d) as [L|L]; [|lia].
    assert (2 ^ 32 <= 2 ^ (d - 1)) by (apply Z.pow_le_mono_r; lia). lia. }
  destruct R as [[-> _]|(-> & _)]; lia.
Qed.

(** The quotient of two converted integers [0 <= i <= u], [u > 0], lies in
    the unit interval. *)
Lemma div_of_int_in_unit i u :
  0 <= i <= u -> 0 < u < 2 ^ 32 ->
  in_unit (F32.div (F32.of_int i) (F32.of_int u)).
Proof.
  intros Hi Hu. destruct u as [|pu|pu]; try lia.
  destruct (of_int_pos pu ltac:(lia)) as (m2 & e2 & E2 & R2).
  destruct i as [|pi|pi]; try lia.
  - rewrite E2. split; reflexivity.
  - destruct (of_int_pos pi ltac:(lia)) as (m1 & e1 & E1 & R1).
    destruct (Z.eq_dec (Z.pos pi) (Z.pos pu)) as [Eq|Ne].
    + rewrite Eq, E2, div_self. split; reflexivity.
    + rewrite E1, E2.
      apply div_normal_le_one.
      * apply R1.
      * apply R2.
      * apply (rounded_exponent pi m1); [lia|assumption].
      * apply (rounded_exponent pu m2); [lia|assumption].
      * apply (rounded_mono pi pu); [lia|assumption|assumption].
Qed.

(** ** [int] arithmetic *)

(** Range goals and hypotheses, once the bounds are numbers. *)
Ltac int_range :=
  unfold Int32.in_range, Int32.min_int, Int32.max_int in *; lia.

Lemma wrap_in_range z : Int32.in_range (Int32.wrap z).
Proof.
  unfold Int32.wrap.
  pose proof (Z.mod_pos_bound (z + 2 ^ 31) (2 ^ 32) ltac:(lia)). int_range.
Qed.

Lemma wrap_small z : Int32.in_range z -> Int32.wrap z = z.
Proof.
  unfold Int32.wrap. intros H.
  rewrite Z.mod_small by int_range. lia.
Qed.

Lemma wrap_sub_wrap_l x y : Int32.wrap (Int32.wrap x - y) = Int32.wrap (x - y).
Proof.
  unfold Int32.wrap. f_equal.
  replace ((x + 2 ^ 31) mod 2 ^ 32 - 2 ^ 31 - y + 2 ^ 31)
    with ((x + 2 ^ 31) mod 2 ^ 32 + - y) by lia.
  rewrite Zplus_mod_idemp_l. f_equal. lia.
Qed.

Lemma area_in_range b : Int32.in_range (area b).
Proof. apply wrap_in_range. Qed.

Lemma union_area_self a : union_area a a = area a.
Proof.
  unfold union_area, intersection, x_left, x_right, y_top, y_bottom.
  rewrite !Z.max_id, !Z.min_id. fold (area a).
  unfold Int32.sub, Int32.add. rewrite wrap_sub_wrap_l.
  replace (area a + area a - area a) with (area a) by lia.
  apply wrap_small, area_in_range.
Qed.

Lemma intersection_self a : intersection a a = area a.
Proof.
  unfold intersection, x_left, x_right, y_top, y_bottom.
  now rewrite !Z.max_id, !Z.min_id.
Qed.

(** ** [calculate_iou] *)

Lemma of_int_finite n :
  n <> 0 -> Int32.in_range n ->
  exists s m e, F32.of_int n = S754_finite s m e.
Proof.
  intros Hn Hr. destruct n as [|p|p]; [lia| |].
  - destruct (of_int_pos p ltac:(int_range)) as (m & e & E & _). eauto.
  - destruct (of_int_neg p ltac:(int_range)) as (m & e & E & _). eauto.
Qed.

Lemma no_overlap_true_iff b1 b2 :
  no_overlap b1 b2 = true <->
  x_left b1 b2 > x_right b1 b2 \/ y_bottom b1 b2 < y_top b1 b2.
Proof.
  unfold no_overlap. rewrite orb_true_iff, !Z.ltb_lt. lia.
Qed.

Lemma separated_no_overlap b1 b2 : separated b1 b2 -> no_overlap b1 b2 = true.
Proof.
  intros H. apply no_overlap_true_iff.
  unfold separated, x_left, x_right, y_top, y_bottom in *. lia.
Qed.

Lemma in_unit_zero : in_unit F32.zero.
Proof. split; reflexivity. Qed.

Lemma in_unit_not_nan : ~ in_unit F32.nan.
Proof. intros [H _]. discriminate H. Qed.

(** Without overflow and with an open window, the integers handed to the
    division are the mathematical areas. *)
Lemma iou_operands b1 b2 :
  fits_int b1 b2 -> no_overlap b1 b2 = false ->
  0 <= intersection b1 b2 <= union_area b1 b2 /\
  union_area b1 b2 < 2 ^ 31.
Proof.
  intros (W1 & H1 & W2 & H2 & A1 & A2 & S) G.
  unfold no_overlap in G. apply orb_false_iff in G as [Gx Gy].
  apply Z.ltb_ge in Gx, Gy.
  unfold union_area, area, intersection, Int32.sub, Int32.add, Int32.mul.
  unfold x_left, x_right, y_top, y_bottom in *.
  set (w := Z.min (x2 b1) (x2 b2) - Z.max (x1 b1) (x1 b2)) in *.
  set (h := Z.min (y2 b1) (y2 b2) - Z.max (y1 b1) (y1 b2)) in *.
  set (w1 := x2 b1 - x1 b1) in *. set (h1 := y2 b1 - y1 b1) in *.
  set (w2 := x2 b2 - x1 b2) in *. set (h2 := y2 b2 - y1 b2) in *.
  assert (Bw : 0 <= w /\ w <= w1 /\ w <= w2) by (unfold w, w1, w2; lia).
  assert (Bh : 0 <= h /\ h <= h1 /\ h <= h2) by (unfold h, h1, h2; lia).
  assert (I1 : w * h <= w1 * h1) by nia.
  assert (I2 : w * h <= w2 * h2) by nia.
  assert (I0 : 0 <= w * h) by nia.
  rewrite (wrap_small w), (wrap_small h), (wrap_small w1), (wrap_small h1),
    (wrap_small w2), (wrap_small h2) by int_range.
  rewrite (wrap_small (w * h)), (wrap_small (w1 * h1)), (wrap_small (w2 * h2))
    by int_range.
  rewrite (wrap_small (w1 * h1 + w2 * h2)) by int_range.
  rewrite wrap_small by int_range.
  int_range.
Qed.

(** The scenarios of [test_calculate_iou]. *)
Example scenario_calculate_iou_overlap :
  calculate_iou (Box 0 0 2 2 0) (Box 1 1 3 3 0)
  = F32.div (F32.of_int 1) (F32.of_int 7).
Proof. reflexivity. Qed.

Example scenario_calculate_iou_disjoint :
  calculate_iou (Box 0 0 2 2 0) (Box 4 4 6 6 0) = F32.zero.
Proof. reflexivity. Qed.

(** Why the absence of overflow matters: once an area wraps around, the
    quotient can leave the unit interval (here it is negative). *)
Example iou_overflow_negative :
  F32.le F32.zero
    (calculate_iou (Box 0 0 46341 46341 0) (Box 0 0 1 1 0)) = false.
Proof. vm_compute. reflexivity. Qed.

(** C2, as stated, fails: two zero-area boxes at the same point pass the
    overlap test and the division is [0.0f / 0.0f], which is NaN, not a
    number of the unit interval. *)
Lemma calculate_iou_range_counterexample :
  calculate_iou (Box 0 0 0 0 0) (Box 0 0 0 0 0) = F32.nan /\
  ~ in_unit (calculate_iou (Box 0 0 0 0 0) (Box 0 0 0 0 0)).
Proof.
  split; [reflexivity|]. intros [H _]. vm_compute in H. discriminate H.
Qed.

(** C2 (amended): when the intersection window is empty, or when the [int]
    computations do not overflow and the union area is not zero,
    [calculate_iou] returns a float between [0.0f] and [1.0f], bounds
    included. *)
Theorem calculate_iou_range b1 b2 :
  no_overlap b1 b2 = true \/ (fits_int b1 b2 /\ union_area b1 b2 <> 0) ->
  in_unit (calculate_iou b1 b2).
Proof.
  intros H. unfold calculate_iou.
  destruct (no_overlap b1 b2) eqn:G; [apply in_unit_zero|].
  destruct H as [H|[Hf Hu]]; [discriminate|].
  destruct (iou_operands b1 b2 Hf G) as [Hi Hlt].
  apply div_of_int_in_unit; lia.
Qed.

Lemma calculate_iou_range_witness :
  in_unit (calculate_iou (Box 0 0 2 2 0) (Box 1 1 3 3 0)).
Proof.
  apply (calculate_iou_range (Box 0 0 2 2 0) (Box 1 1 3 3 0)).
  right. split.
  - unfold fits_int, Int32.in_range, Int32.min_int, Int32.max_int. simpl. lia.
  - vm_compute. discriminate.
Defined.

(** C6: [calculate_iou] is symmetric in its two boxes. *)
Theorem calculate_iou_sym b1 b2 : calculate_iou b1 b2 = calculate_iou b2 b1.
Proof.
  unfold calculate_iou, no_overlap, union_area, intersection,
    x_left, x_right, y_top, y_bottom, Int32.add.
  rewrite (Z.max_comm (x1 b1)), (Z.min_comm (x2 b1)),
    (Z.max_comm (y1 b1)), (Z.min_comm (y2 b1)), (Z.add_comm (area b1)).
  reflexivity.
Qed.

(** C7, as stated, fails: the area of a 65536 x 65536 box is [2 ^ 32],
    which an [int] holds as 0, and the quotient is [0.0f / 0.0f], NaN. *)
Lemma calculate_iou_self_counterexample :
  x1 (Box 0 0 65536 65536 0) < x2 (Box 0 0 65536 65536 0) /\
  y1 (Box 0 0 65536 65536 0) < y2 (Box 0 0 65536 65536 0) /\
  calculate_iou (Box 0 0 65536 65536 0) (Box 0 0 65536 65536 0) = F32.nan /\
  calculate_iou (Box 0 0 65536 65536 0) (Box 0 0 65536 65536 0) <> F32.one.
Proof.
  split; [reflexivity|]. split; [reflexivity|].
  split; [vm_compute; reflexivity | vm_compute; discriminate].
Qed.

(** C7 (amended): for every non-degenerate box ([x1 < x2] and [y1 < y2])
    whose area, as the [int] arithmetic computes it, is not zero,
    [calculate_iou a a] is exactly [1.0f]. *)
Theorem calculate_iou_self a :
  x1 a < x2 a -> y1 a < y2 a -> area a <> 0 ->
  calculate_iou a a = F32.one.
Proof.
  intros Hx Hy Ha. unfold calculate_iou.
  assert (G : no_overlap a a = false).
  { unfold no_overlap, x_left, x_right, y_top, y_bottom.
    rewrite !Z.max_id, !Z.min_id. apply orb_false_iff.
    split; apply Z.ltb_ge; lia. }
  rewrite G, intersection_self, union_area_self.
  destruct (of_int_finite (area a) Ha (area_in_range a)) as (s & m & e & ->).
  apply div_self.
Qed.

Lemma calculate_iou_self_witness :
  calculate_iou (Box 0 0 4 4 0) (Box 0 0 4 4 0) = F32.one.
Proof.
  apply (calculate_iou_self (Box 0 0 4 4 0)).
  - simpl. lia.
  - simpl. lia.
  - vm_compute. discriminate.
Defined.

(** C8: when the intersection window is empty ([x_left > x_right] or
    [y_bottom < y_top]), and so in particular when the boxes are apart on
    some axis, [calculate_iou] returns exactly [0.0f]. *)
Theorem calculate_iou_disjoint b1 b2 :
  (x_left b1 b2 > x_right b1 b2 \/ y_bottom b1 b2 < y_top b1 b2)
  \/ separated b1 b2 ->
  calculate_iou b1 b2 = F32.zero.
Proof.
  intros H. unfold calculate_iou.
  assert (G : no_overlap b1 b2 = true).
  { destruct H as [H|H]; [now apply no_overlap_true_iff|].
    now apply separated_no_overlap. }
  now rewrite G.
Qed.

Lemma calculate_iou_disjoint_witness :
  calculate_iou (Box 0 0 2 2 0) (Box 4 4 6 6 0) = F32.zero.
Proof.
  apply (calculate_iou_disjoint (Box 0 0 2 2 0) (Box 4 4 6 6 0)).
  right. unfold separated. simpl. lia.
Defined.

(** ** [frame_clean] *)

(** *** The loops compute [select] of [final_flags] *)

Section Clean.

Variable t : F32.float.

Lemma mark_length b bs keep :
  length keep = length bs -> length (mark t b bs keep) = length bs.
Proof.
  revert keep. induction bs as [|c bs IH]; intros [|k keep] H; simpl in *;
    try discriminate; auto.
Qed.

Lemma final_flags_length bs keep :
  length keep = length bs -> length (final_flags t bs keep) = length bs.
Proof.
  revert keep. induction bs as [|b bs IH]; intros [|k keep] H; simpl in *;
    try discriminate; auto.
  destruct k; simpl; f_equal; apply IH; [rewrite mark_length|]; lia.
Qed.

Lemma clean_inner_spec bs i b steps : forall j keep,
  bs !! i = Some b -> length keep = length bs ->
  (j + steps)%nat = length bs ->
  clean_inner bs t i j steps keep
  = take j keep ++ mark t b (drop j bs) (drop j keep).
Proof.
  induction steps as [|steps IH]; intros j keep Hb Hk Hj; simpl.
  - rewrite (drop_ge bs), take_ge by lia. simpl. now rewrite app_nil_r.
  - destruct (lookup_lt_is_Some_2 bs j ltac:(lia)) as [c Hc].
    destruct (lookup_lt_is_Some_2 keep j ltac:(lia)) as [k Hkj].
    rewrite Hb, Hc.
    rewrite (drop_S bs c j Hc), (drop_S keep k j Hkj). simpl.
    destruct (same_object t b c).
    + rewrite IH by (rewrite ?length_insert; auto; lia).
      rewrite drop_insert_lt by lia.
      rewrite (take_S_r _ j false)
        by (apply list_lookup_insert_eq; apply lookup_lt_Some in Hkj; lia).
      rewrite take_insert_ge by lia. now rewrite <- app_assoc.
    + rewrite IH by (auto; lia).
      rewrite (take_S_r _ j k Hkj). now rewrite <- app_assoc.
Qed.

Lemma clean_outer_spec bs steps : forall i keep,
  length keep = length bs -> (i + steps)%nat = length bs ->
  clean_outer bs t i steps keep
  = take i keep ++ final_flags t (drop i bs) (drop i keep).
Proof.
  induction steps as [|steps IH]; intros i keep Hk Hi; simpl.
  - rewrite (drop_ge bs), take_ge by lia. simpl. now rewrite app_nil_r.
  - destruct (lookup_lt_is_Some_2 bs i ltac:(lia)) as [b Hb].
    destruct (lookup_lt_is_Some_2 keep i ltac:(lia)) as [k Hki].
    rewrite Hki.
    rewrite (drop_S bs b i Hb), (drop_S keep k i Hki). simpl.
    destruct k.
    + rewrite (clean_inner_spec bs i b) by (auto; lia).
      assert (Hl : length (take (S i) keep) = S i) by (rewrite length_take; lia).
      rewrite IH.
      * rewrite take_app_length' by (symmetry; exact Hl).
        rewrite drop_app_length' by (symmetry; exact Hl).
        rewrite (take_S_r _ i true Hki). now rewrite <- app_assoc.
      * rewrite length_app, Hl, mark_length; rewrite !length_drop; lia.
      * lia.
    + rewrite IH by (auto; lia).
      rewrite (take_S_r _ i false Hki). now rewrite <- app_assoc.
Qed.

Lemma collect_spec bs keep steps : forall i acc,
  length keep = length bs -> (i + steps)%nat = length bs ->
  collect bs keep i steps acc = acc ++ select (drop i bs) (drop i keep).
Proof.
  induction steps as [|steps IH]; intros i acc Hk Hi; simpl.
  - rewrite (drop_ge bs) by lia. simpl. now rewrite app_nil_r.
  - destruct (lookup_lt_is_Some_2 bs i ltac:(lia)) as [b Hb].
    destruct (lookup_lt_is_Some_2 keep i ltac:(lia)) as [k Hki].
    rewrite Hki, Hb.
    rewrite (drop_S bs b i Hb), (drop_S keep k i Hki). simpl.
    rewrite IH by (auto; lia).
    destruct k; [now rewrite <- app_assoc | reflexivity].
Qed.

(** The program computes the boxes selected by the final flags. *)
Lemma clean_boxes_spec bs :
  clean_boxes bs t
  = select bs (final_flags t bs (replicate (length bs) true)).
Proof.
  unfold clean_boxes.
  rewrite clean_outer_spec by (rewrite ?length_replicate; lia).
  rewrite !drop_0, take_0. simpl.
  rewrite collect_spec
    by (rewrite ?final_flags_length; rewrite ?length_replicate; lia).
  now rewrite !drop_0.
Qed.

(** *** Consequences *)

Lemma select_sublist bs keep : sublist (select bs keep) bs.
Proof.
  revert keep. induction bs as [|b bs IH]; intros [|k keep]; simpl;
    try apply sublist_nil_l.
  destruct k; [apply sublist_skip | apply sublist_cons]; apply IH.
Qed.

Lemma mark_lookup_true b bs keep (j : nat) :
  mark t b bs keep !! j = Some true ->
  exists c, bs !! j = Some c /\ keep !! j = Some true
            /\ same_object t b c = false.
Proof.
  revert keep j. induction bs as [|c bs IH]; intros [|k keep] j H;
    simpl in *; try discriminate.
  destruct j as [|j]; simpl in *.
  - exists c. destruct (same_object t b c); [discriminate|].
    injection H as ->. auto.
  - apply IH, H.
Qed.

(** Every box that survives was flagged on entry. *)
Lemma survivors_Forall (P : box -> Prop) bs : forall keep,
  (forall (j : nat) c, bs !! j = Some c -> keep !! j = Some true -> P c) ->
  Forall P (select bs (final_flags t bs keep)).
Proof.
  induction bs as [|b bs IH]; intros [|k keep] H; simpl; try constructor.
  destruct k; simpl.
  - constructor; [apply (H 0%nat); reflexivity|].
    apply IH. intros j c Hc Hm.
    apply mark_lookup_true in Hm as (c' & Hc' & Hk & _).
    apply (H (S j)); simpl; congruence.
  - apply IH. intros j c Hc Hk. apply (H (S j)); assumption.
Qed.

Lemma mark_apart b bs :
  Forall (fun c => same_object t b c = false) bs ->
  mark t b bs (replicate (length bs) true) = replicate (length bs) true.
Proof.
  induction 1 as [|c bs Hc _ IH]; simpl; [reflexivity|].
  now rewrite Hc, IH.
Qed.

(** A second pass over the survivors clears no flag. *)
Lemma survivors_fixed bs : forall keep,
  length keep = length bs ->
  let out := select bs (final_flags t bs keep) in
  select out (final_flags t out (replicate (length out) true)) = out.
Proof.
  induction bs as [|b bs IH]; intros [|k keep] Hk; simpl in *;
    try discriminate; try reflexivity.
  destruct k; simpl.
  - set (out := select bs (final_flags t bs (mark t b bs keep))).
    rewrite mark_apart.
    + f_equal. apply IH. rewrite mark_length; lia.
    + apply survivors_Forall. intros j c Hc Hm.
      apply mark_lookup_true in Hm as (c' & Hc' & _ & Hs). congruence.
  - apply IH. lia.
Qed.

End Clean.

(** The scenario of [test_frame_clean], at threshold [0.3f]. *)
Example scenario_frame_clean :
  length (boxes (frame_clean
    (Frame (Image 0 0 0 []) [Box 0 0 4 4 0; Box 1 1 5 5 0; Box 5 5 9 9 0])
    (F32.div (F32.of_int 3) (F32.of_int 10)))) = 2%nat.
Proof. vm_compute. reflexivity. Qed.

(** C3: [frame_clean] is idempotent: cleaning an already cleaned frame
    with the same threshold changes nothing. *)
Theorem frame_clean_idempotent f t :
  frame_clean (frame_clean f t) t = frame_clean f t.
Proof.
  unfold frame_clean. simpl. f_equal.
  rewrite (clean_boxes_spec t (boxes f)).
  rewrite clean_boxes_spec.
  apply survivors_fixed. now rewrite length_replicate.
Qed.

(** C4: the boxes of the cleaned frame are a subsequence of the boxes on
    entry: none is added, the survivors keep their relative order, and the
    length does not grow. *)
Theorem frame_clean_subsequence f t :
  sublist (boxes (frame_clean f t)) (boxes f) /\
  (length (boxes (frame_clean f t)) <= length (boxes f))%nat.
Proof.
  assert (H : sublist (boxes (frame_clean f t)) (boxes f)).
  { unfold frame_clean. simpl. rewrite clean_boxes_spec. apply select_sublist. }
  split; [exact H | apply sublist_length, H].
Qed.

(** ** [union_frames] *)

Section Fuse.

Variable t : F32.float.

Lemma merge_scan_length rs x : length (fst (merge_scan t rs x)) = length rs.
Proof.
  induction rs as [|a rs IH]; simpl; [reflexivity|].
  destruct (same_object t a x); simpl; [reflexivity|].
  destruct (merge_scan t rs x) as [rs' m]. simpl in *. now rewrite IH.
Qed.

(** No entry matches: the scan leaves the boxes as they are. *)
Lemma merge_scan_apart rs x :
  Forall (fun a => same_object t a x = false) rs ->
  merge_scan t rs x = (rs, false).
Proof.
  induction 1 as [|a rs Ha _ IH]; simpl; [reflexivity|].
  now rewrite Ha, IH.
Qed.

Lemma merge_scan_not_merged rs x :
  snd (merge_scan t rs x) = false ->
  Forall (fun a => same_object t a x = false) rs.
Proof.
  induction rs as [|a rs IH]; simpl; [constructor|].
  destruct (same_object t a x) eqn:E; simpl; [discriminate|].
  destruct (merge_scan t rs x) as [rs' m]. simpl in *. auto.
Qed.

Lemma union_step_length rs x :
  length (union_step t rs x)
  = if snd (merge_scan t rs x) then length rs else S (length rs).
Proof.
  unfold union_step. pose proof (merge_scan_length rs x) as H.
  destruct (merge_scan t rs x) as [rs' m]. simpl in *.
  destruct m; [exact H|]. rewrite length_app. simpl. lia.
Qed.

Lemma union_boxes_snoc a b x :
  union_boxes a (b ++ [x]) t = union_step t (union_boxes a b t) x.
Proof. unfold union_boxes. now rewrite fold_left_app. Qed.

Lemma union_boxes_length a b :
  (length (union_boxes a b t) <= length a + length b)%nat.
Proof.
  induction b as [|x b IH] using rev_ind; [simpl; lia|].
  rewrite union_boxes_snoc, union_step_length, length_app. simpl.
  destruct (snd _); lia.
Qed.

Lemma pairwise_apart_snoc b x :
  pairwise_apart t (b ++ [x]) <->
  pairwise_apart t b /\ Forall (fun a => same_object t a x = false) b.
Proof.
  unfold pairwise_apart. split.
  - intros H. split.
    + intros i j bi bj Hij Hi Hj.
      apply (H i j); [exact Hij| |]; apply lookup_app_l_Some; assumption.
    + apply Forall_lookup. intros i a Ha.
      apply (H i (length b)).
      * apply lookup_lt_Some in Ha. exact Ha.
      * apply lookup_app_l_Some, Ha.
      * rewrite lookup_app_r by lia. now rewrite Nat.sub_diag.
  - intros [H F] i j bi bj Hij Hi Hj.
    destruct (decide (j < length b)%nat) as [L|L].
    + rewrite lookup_app_l in Hi, Hj by lia. eauto.
    + rewrite lookup_app_r in Hj by lia.
      destruct (j - length b)%nat as [|k] eqn:E; simpl in Hj; [|destruct k; discriminate].
      injection Hj as <-.
      rewrite lookup_app_l in Hi by lia.
      rewrite Forall_lookup in F. eauto.
Qed.

(** With an empty primary sequence the result is the secondary sequence
    exactly when no secondary box matches an earlier secondary box. *)
Lemma union_boxes_nil_l b :
  union_boxes [] b t = b <-> pairwise_apart t b.
Proof.
  induction b as [|x b IH] using rev_ind.
  - split; [|reflexivity]. intros _ i j bi bj _ Hi. discriminate Hi.
  - rewrite union_boxes_snoc, pairwise_apart_snoc. split.
    + intros E.
      pose proof (union_boxes_length [] b) as Hl. simpl in Hl.
      pose proof (union_step_length (union_boxes [] b t) x) as Hs.
      rewrite E, length_app in Hs. simpl in Hs.
      destruct (snd (merge_scan t (union_boxes [] b t) x)) eqn:Em; [lia|].
      apply merge_scan_not_merged in Em.
      unfold union_step in E. rewrite (merge_scan_apart _ _ Em) in E.
      apply app_inj_tail in E as [E _].
      split; [now apply IH | now rewrite <- E].
    + intros [Hb F]. apply IH in Hb. rewrite Hb.
      unfold union_step. now rewrite (merge_scan_apart _ _ F).
Qed.

End Fuse.

(** The scenario of [test_union_frames], at threshold [0.1f]. *)
Example scenario_union_frames :
  boxes (union_frames
    (Frame (Image 0 0 0 []) [Box 0 0 4 4 0; Box 5 5 9 9 0])
    (Frame (Image 0 0 0 []) [Box 2 2 6 6 0; Box 10 10 14 14 0])
    (F32.div (F32.of_int 1) (F32.of_int 10)))
  = [Box 0 0 6 6 0; Box 5 5 9 9 0; Box 10 10 14 14 0].
Proof. vm_compute. reflexivity. Qed.

(** C1, as stated, fails: a secondary box is also compared with the
    secondary boxes appended before it, so a repeated box is merged into
    its first copy instead of being appended. *)
Lemma union_frames_empty_primary_counterexample :
  boxes (union_frames
    (Frame (Image 0 0 0 []) [])
    (Frame (Image 0 0 0 []) [Box 0 0 2 2 0; Box 0 0 2 2 0])
    (F32.div (F32.of_int 1) (F32.of_int 2)))
  <> [Box 0 0 2 2 0; Box 0 0 2 2 0].
Proof. vm_compute. discriminate. Qed.

(** C1 (amended): fusing an empty primary sequence with the secondary
    sequence [b] returns exactly [b], same content and order, if and only
    if no box of [b] has an IoU of at least the threshold with a box
    earlier in [b]. *)
Theorem union_frames_empty_primary im f2 t :
  boxes (union_frames (Frame im []) f2 t) = boxes f2
  <-> pairwise_apart t (boxes f2).
Proof. unfold union_frames. simpl. apply union_boxes_nil_l. Qed.

Lemma union_frames_empty_primary_witness :
  boxes (union_frames (Frame (Image 0 0 0 []) [])
           (Frame (Image 0 0 0 []) [Box 0 0 2 2 0; Box 4 4 6 6 0])
           (F32.div (F32.of_int 1) (F32.of_int 2)))
  = [Box 0 0 2 2 0; Box 4 4 6 6 0].
Proof.
  apply (union_frames_empty_primary (Image 0 0 0 [])
           (Frame (Image 0 0 0 []) [Box 0 0 2 2 0; Box 4 4 6 6 0])).
  intros i j bi bj Hij Hi Hj.
  destruct i as [|[|i]], j as [|[|j]]; simpl in Hi, Hj;
    try discriminate; try lia.
  injection Hi as <-. injection Hj as <-. reflexivity.
Defined.

(** C5: fusing with an empty secondary sequence returns the first frame
    unchanged: same image handle, same boxes in the same order, every
    field of every box included. *)
Theorem union_frames_empty_secondary f1 im t :
  union_frames f1 (Frame im []) t = f1.
Proof. destruct f1. reflexivity. Qed.

(** *** The run on the store *)

Section Run.

Variable t : F32.float.

Lemma scan_loop_run (lr : Mem.loc) im rs x (h : gmap Mem.loc frame) steps :
  forall k,
  h !! lr = Some (Frame im rs) -> (k + steps)%nat = length rs ->
  Mem.scan_loop t lr x k steps h
  = Some (snd (merge_scan t (drop k rs) x),
          <[lr := Frame im (take k rs ++ fst (merge_scan t (drop k rs) x))]> h).
Proof.
  induction steps as [|steps IH]; intros k Hh Hk; simpl.
  - rewrite drop_ge, take_ge by lia. simpl. rewrite app_nil_r.
    unfold Mem.ret. now rewrite insert_id.
  - unfold Mem.bind at 1. unfold Mem.load. rewrite Hh. simpl.
    destruct (lookup_lt_is_Some_2 rs k ltac:(lia)) as [box1 Hb].
    rewrite Hb, (drop_S rs box1 k Hb). simpl.
    destruct (same_object t box1 x); simpl.
    + unfold Mem.bind, Mem.store, Mem.ret. rewrite Hh.
      rewrite insert_take_drop by (apply lookup_lt_Some in Hb; exact Hb).
      reflexivity.
    + rewrite IH by (auto; lia).
      destruct (merge_scan t (drop (S k) rs) x) as [rest m]. simpl.
      rewrite (take_S_r rs k box1 Hb). now rewrite <- app_assoc.
Qed.

Lemma visit_run (lr : Mem.loc) im rs x (h : gmap Mem.loc frame) :
  h !! lr = Some (Frame im rs) ->
  Mem.visit t lr x h = Some (tt, <[lr := Frame im (union_step t rs x)]> h).
Proof.
  intros Hh. unfold Mem.visit.
  unfold Mem.bind at 1. unfold Mem.load at 1. rewrite Hh. simpl.
  unfold Mem.bind at 1. rewrite (scan_loop_run lr im rs x h) by (auto; lia).
  rewrite drop_0, take_0. simpl. unfold union_step.
  destruct (merge_scan t rs x) as [rs' m]. simpl.
  destruct m; [reflexivity|].
  unfold Mem.bind, Mem.load, Mem.store. rewrite !lookup_insert_eq. simpl.
  now rewrite insert_insert_eq.
Qed.

Lemma outer_loop_run (l2 lr : Mem.loc) f2 im steps :
  lr <> l2 ->
  forall k rs (h : gmap Mem.loc frame),
  h !! l2 = Some f2 -> h !! lr = Some (Frame im rs) ->
  (k + steps)%nat = length (boxes f2) ->
  Mem.outer_loop t l2 lr k steps h
  = Some (tt, <[lr := Frame im (fold_left (union_step t) (drop k (boxes f2)) rs)]> h).
Proof.
  intros Hne. induction steps as [|steps IH]; intros k rs h H2 Hr Hk; simpl.
  - rewrite drop_ge by lia. simpl. unfold Mem.ret. now rewrite insert_id.
  - unfold Mem.bind at 1. unfold Mem.load. rewrite H2. simpl.
    destruct (lookup_lt_is_Some_2 (boxes f2) k ltac:(lia)) as [box2 Hb].
    rewrite Hb, (drop_S _ box2 k Hb). simpl.
    unfold Mem.bind. rewrite (visit_run lr im rs box2 h Hr).
    rewrite (IH (S k) (union_step t rs box2)).
    + now rewrite insert_insert_eq.
    + now rewrite lookup_insert_ne.
    + apply lookup_insert_eq.
    + lia.
Qed.

(** The run of [union_frames] on a store: it succeeds, the result sits at
    a place that was free, and it is the frame [union_frames f1 f2]. *)
Lemma union_frames_run (h : gmap Mem.loc frame) (l1 l2 : Mem.loc) f1 f2 :
  h !! l1 = Some f1 -> h !! l2 = Some f2 ->
  Mem.union_frames l1 l2 t h
  = Some (fresh (dom h), <[fresh (dom h) := union_frames f1 f2 t]> h).
Proof.
  intros H1 H2. unfold Mem.union_frames.
  unfold Mem.bind at 1. unfold Mem.load at 1. rewrite H1. simpl.
  unfold Mem.bind at 1. unfold Mem.alloc. simpl.
  set (lr := fresh (dom h)).
  assert (Hf : h !! lr = None) by (apply not_elem_of_dom, is_fresh).
  assert (Hne : lr <> l2) by congruence.
  unfold Mem.bind at 1. unfold Mem.load at 1.
  rewrite lookup_insert_ne by exact Hne. rewrite H2. simpl.
  unfold Mem.bind.
  rewrite (outer_loop_run l2 lr f2 (img f1) (length (boxes f2)) Hne 0%nat (boxes f1)).
  - rewrite drop_0, insert_insert_eq. reflexivity.
  - now rewrite lookup_insert_ne.
  - destruct f1. apply lookup_insert_eq.
  - lia.
Qed.

End Run.

(** C10: [union_frames] modifies neither input frame.  Whatever the store
    and the places of [f1] and [f2] (they may coincide), the call returns;
    afterwards both places hold the frames they held before, and so does
    every other place that was in use; the result is a new object, at a
    place that was free before the call. *)
Theorem union_frames_inputs_unchanged
    (h : gmap Mem.loc frame) (l1 l2 : Mem.loc) f1 f2 t :
  h !! l1 = Some f1 -> h !! l2 = Some f2 ->
  exists result h',
    Mem.union_frames l1 l2 t h = Some (result, h') /\
    h' !! l1 = Some f1 /\ h' !! l2 = Some f2 /\
    h !! result = None /\
    h' !! result = Some (union_frames f1 f2 t) /\
    (forall l, l <> result -> h' !! l = h !! l).
Proof.
  intros H1 H2. exists (fresh (dom h)), (<[fresh (dom h) := union_frames f1 f2 t]> h).
  assert (Hf : h !! fresh (dom h) = None) by (apply not_elem_of_dom, is_fresh).
  split; [now apply union_frames_run|].
  split; [rewrite lookup_insert_ne by congruence; exact H1|].
  split; [rewrite lookup_insert_ne by congruence; exact H2|].
  split; [exact Hf|].
  split; [apply lookup_insert_eq|].
  intros l Hl. now rewrite lookup_insert_ne.
Qed.

Lemma union_frames_inputs_unchanged_witness :
  let f := Frame (Image 0 0 0 []) [Box 0 0 4 4 0; Box 2 2 6 6 0] in
  let h : gmap Mem.loc frame := {[ 1%positive := f ]} in
  let t := F32.div (F32.of_int 1) (F32.of_int 10) in
  exists result h',
    Mem.union_frames 1%positive 1%positive t h = Some (result, h') /\
    h' !! 1%positive = Some f /\ h' !! 1%positive = Some f /\
    h !! result = None /\
    h' !! result = Some (union_frames f f t) /\
    (forall l, l <> result -> h' !! l = h !! l).
Proof.
  intros f h t.
  apply (union_frames_inputs_unchanged h 1%positive 1%positive f f t);
    reflexivity.
Defined.

(** ** [rgb2bgr] *)

Lemma swap_channels_lookup d off d' :
  swap_channels d off = Some d' ->
  length d' = length d /\
  d' !! off = d !! (off + 2)%nat /\
  d' !! (off + 2)%nat = d !! off /\
  (forall k : nat, k <> off -> k <> (off + 2)%nat -> d' !! k = d !! k).
Proof.
  unfold swap_channels.
  destruct (d !! off) as [c0|] eqn:E0; [|discriminate].
  destruct (d !! (off + 2)%nat) as [c2|] eqn:E2; [|discriminate].
  intros [= <-].
  apply lookup_lt_Some in E0 as L0. apply lookup_lt_Some in E2 as L2.
  rewrite !length_insert. split; [reflexivity|]. split; [|split].
  - rewrite list_lookup_insert_ne by lia.
    rewrite list_lookup_insert_eq by lia. reflexivity.
  - rewrite list_lookup_insert_eq by (rewrite length_insert; lia). reflexivity.
  - intros k H0 H2. now rewrite !list_lookup_insert_ne by lia.
Qed.

Lemma swap_channels_defined (d : list Byte.byte) off :
  (off + 3 <= length d)%nat -> exists d', swap_channels d off = Some d'.
Proof.
  intros H. unfold swap_channels.
  destruct (lookup_lt_is_Some_2 d off ltac:(lia)) as [c0 ->].
  destruct (lookup_lt_is_Some_2 d (off + 2)%nat ltac:(lia)) as [c2 ->].
  eauto.
Qed.

(** Invariant of the loop: the [steps] pixels from offset [off] on are
    swapped, the rest of the buffer is as before. *)
Lemma swap_loop_spec steps : forall (d : list Byte.byte) off,
  (off + 3 * steps <= length d)%nat ->
  exists d', swap_loop d off steps = Some d' /\
    length d' = length d /\
    (forall k : nat, (k < off)%nat -> d' !! k = d !! k) /\
    (forall k : nat, (off + 3 * steps <= k)%nat -> d' !! k = d !! k) /\
    (forall i : nat, (i < steps)%nat ->
       d' !! (off + 3 * i)%nat = d !! (off + 3 * i + 2)%nat /\
       d' !! (off + 3 * i + 1)%nat = d !! (off + 3 * i + 1)%nat /\
       d' !! (off + 3 * i + 2)%nat = d !! (off + 3 * i)%nat).
Proof.
  induction steps as [|steps IH]; intros d off H.
  - exists d. simpl. repeat split; auto; intros; lia.
  - destruct (swap_channels_defined d off ltac:(lia)) as [d1 E1].
    destruct (swap_channels_lookup d off d1 E1) as (L1 & A0 & A2 & Ak).
    destruct (IH d1 (off + 3)%nat ltac:(lia)) as (d' & E & L & Lo & Hi & Px).
    exists d'. cbn [swap_loop]. rewrite E1.
    split; [exact E|]. split; [lia|]. split; [|split].
    + intros k Hk. rewrite Lo by lia. apply Ak; lia.
    + intros k Hk. rewrite Hi by lia. apply Ak; lia.
    + intros [|i] Hi'.
      * replace (off + 3 * 0)%nat with off by lia.
        rewrite !Lo by lia. rewrite A0, A2. split; [reflexivity|].
        split; [apply Ak; lia | reflexivity].
      * replace (off + 3 * S i)%nat with (off + 3 + 3 * i)%nat by lia.
        destruct (Px i ltac:(lia)) as (P0 & P1 & P2).
        rewrite P0, P1, P2. rewrite !Ak by lia. auto.
Qed.

(** The loop bound is the number of pixels whenever that number is an
    [int]. *)
Lemma pixel_count_exact im :
  0 <= height im * width im <= Int32.max_int ->
  pixel_count im = Z.to_nat (height im * width im).
Proof.
  intros H. unfold pixel_count, Int32.mul.
  rewrite wrap_small by int_range. reflexivity.
Qed.

(** The scenario of [test_rgb2bgr]. *)
Example scenario_rgb2bgr :
  rgb2bgr (Image 2 2 1
    [Byte.xff; Byte.x00; Byte.x00; Byte.x00; Byte.xff; Byte.x00;
     Byte.x00; Byte.x00; Byte.xff; Byte.xff; Byte.xff; Byte.xff])
  = Some (true, Image 2 2 2
    [Byte.x00; Byte.x00; Byte.xff; Byte.x00; Byte.xff; Byte.x00;
     Byte.xff; Byte.x00; Byte.x00; Byte.xff; Byte.xff; Byte.xff]).
Proof. reflexivity. Qed.

(** What a call does, in terms of the number of iterations of its loop:
    on an image whose tag is not RGB, [rgb2bgr] returns [false] and leaves
    the image as it is; on an RGB image whose buffer holds three bytes for
    each iteration, it returns [true], swaps the first and last channel of
    every pixel the loop visits, keeps everything else and sets the tag
    to BGR. *)
Lemma rgb2bgr_visited im :
  (format im <> 1 -> rgb2bgr im = Some (false, im)) /\
  (format im = 1 -> (3 * pixel_count im <= length (data im))%nat ->
   exists d',
     rgb2bgr im = Some (true, Image (width im) (height im) 2 d') /\
     length d' = length (data im) /\
     (forall i : nat, (i < pixel_count im)%nat -> pixel_swapped (data im) d' i) /\
     (forall k : nat, (3 * pixel_count im <= k)%nat -> d' !! k = data im !! k)).
Proof.
  unfold rgb2bgr. split.
  - intros H. apply Z.eqb_neq in H. now rewrite H.
  - intros H Hlen. apply Z.eqb_eq in H. rewrite H.
    destruct (swap_loop_spec (pixel_count im) (data im) 0%nat ltac:(lia))
      as (d' & E & L & _ & Hi & Px).
    exists d'. rewrite E. split; [reflexivity|]. split; [exact L|].
    split; [|exact Hi].
    intros i Hlt. exact (Px i Hlt).
Qed.

(** When the pixel count does not fit in an [int] and wraps around to a
    value that is not positive, the loop does not run: the call returns
    [true] and sets the tag, and the buffer is as before. *)
Lemma rgb2bgr_46341 d :
  rgb2bgr (Image 46341 46341 1 d) = Some (true, Image 46341 46341 2 d).
Proof. reflexivity. Qed.

Lemma first_pixel_not_swapped (d : list Byte.byte) :
  ~ pixel_swapped (Byte.x01 :: Byte.x02 :: Byte.x03 :: d)
                  (Byte.x01 :: Byte.x02 :: Byte.x03 :: d) 0.
Proof. intros [H _]. discriminate H. Qed.

Lemma overflow_buffer_length :
  Z.of_nat (length overflow_buffer) = 3 * (46341 * 46341).
Proof.
  unfold overflow_buffer.
  set (n := Z.to_nat (3 * (46341 * 46341) - 3)).
  assert (Hn : Z.of_nat n = 3 * (46341 * 46341) - 3)
    by (unfold n; apply Z2Nat.id; lia).
  clearbody n.
  change (length (Byte.x01 :: Byte.x02 :: Byte.x03 :: replicate n Byte.x00))
    with (S (S (S (length (replicate n Byte.x00))))).
  rewrite length_replicate. lia.
Qed.

(** C9, as stated, fails on an RGB image whose pixel count does not fit
    in an [int]: for 46341 x 46341 pixels, each with its three bytes in
    the buffer, the loop bound [height * width] wraps around to a negative
    [int] and the loop does not run.  The call returns [true] and sets the
    tag to BGR, but no pixel is swapped: the first one is still
    (1, 2, 3). *)
Lemma rgb2bgr_every_pixel_counterexample :
  format overflow_image = 1 /\
  Z.of_nat (length (data overflow_image))
  = 3 * (height overflow_image * width overflow_image) /\
  rgb2bgr overflow_image
  = Some (true, Image 46341 46341 2 (data overflow_image)) /\
  ~ pixel_swapped (data overflow_image) (data overflow_image) 0.
Proof.
  split; [reflexivity|]. split; [exact overflow_buffer_length|].
  split; [apply rgb2bgr_46341 | apply first_pixel_not_swapped].
Qed.

(** C9 (amended): on an image whose tag is not RGB, [rgb2bgr] returns
    [false] and leaves the image (pixels, dimensions, tag) as it is.  On
    an RGB image whose pixel count [height * width] is not negative and
    fits in an [int], and whose buffer holds three bytes for each of these
    pixels, it returns [true], swaps the first and last channel of every
    pixel, keeps the middle channel, the dimensions and the rest of the
    buffer, and sets the tag to BGR. *)
Theorem rgb2bgr_in_range im :
  (format im <> 1 -> rgb2bgr im = Some (false, im)) /\
  (format im = 1 ->
   0 <= height im * width im <= Int32.max_int ->
   (3 * Z.to_nat (height im * width im) <= length (data im))%nat ->
   exists d',
     rgb2bgr im = Some (true, Image (width im) (height im) 2 d') /\
     length d' = length (data im) /\
     (forall i : nat, (i < Z.to_nat (height im * width im))%nat ->
        pixel_swapped (data im) d' i) /\
     (forall k : nat, (3 * Z.to_nat (height im * width im) <= k)%nat ->
        d' !! k = data im !! k)).
Proof.
  destruct (rgb2bgr_visited im) as [Hno Hyes]. split; [exact Hno|].
  intros Hf Hr. rewrite <- (pixel_count_exact im Hr). exact (Hyes Hf).
Qed.

Lemma rgb2bgr_in_range_witness :
  let im := Image 2 2 1
    [Byte.xff; Byte.x00; Byte.x00; Byte.x00; Byte.xff; Byte.x00;
     Byte.x00; Byte.x00; Byte.xff; Byte.xff; Byte.xff; Byte.xff] in
  exists d',
    rgb2bgr im = Some (true, Image 2 2 2 d') /\
    length d' = 12%nat /\
    (forall i : nat, (i < 4)%nat -> pixel_swapped (data im) d' i) /\
    (forall k : nat, (12 <= k)%nat -> d' !! k = data im !! k).
Proof.
  intros im.
  apply (proj2 (rgb2bgr_in_range im)).
  - reflexivity.
  - unfold Int32.max_int. simpl. lia.
  - vm_compute. repeat constructor.
Defined.

(** * Further properties *)

(** ** [frame_clean]: what the survivors are *)

Section Survivors.

Variable t : F32.float.

Lemma pairwise_apart_cons b bs :
  pairwise_apart t (b :: bs) <->
  Forall (fun c => same_object t b c = false) bs /\ pairwise_apart t bs.
Proof.
  unfold pairwise_apart. split.
  - intros H. split.
    + apply Forall_lookup. intros j c Hc.
      apply (H 0%nat (S j)); [lia|reflexivity|exact Hc].
    + intros i j bi bj Hij Hi Hj. apply (H (S i) (S j)); [lia|exact Hi|exact Hj].
  - intros [F H] i j bi bj Hij Hi Hj. destruct j as [|j]; [lia|].
    destruct i as [|i]; simpl in Hi, Hj.
    + injection Hi as <-. rewrite Forall_lookup in F. eauto.
    + apply (H i j); [lia|exact Hi|exact Hj].
Qed.

Lemma mark_lookup b bs keep (j : nat) c k :
  bs !! j = Some c -> keep !! j = Some k ->
  mark t b bs keep !! j = Some (if same_object t b c then false else k).
Proof.
  revert keep j. induction bs as [|c' bs IH]; intros [|k' keep] j Hc Hk;
    try discriminate.
  destruct j as [|j]; simpl in *.
  - now injection Hc as ->; injection Hk as ->.
  - now apply IH.
Qed.

Lemma select_mark b bs : forall keep,
  length keep = length bs ->
  select bs (mark t b bs keep)
  = filter (fun c => same_object t b c = false) (select bs keep).
Proof.
  induction bs as [|c bs IH]; intros [|k keep] Hk; simpl in *;
    try discriminate; try reflexivity.
  destruct (same_object t b c) eqn:E, k; simpl.
  - rewrite filter_cons_False by (rewrite E; discriminate). apply IH. lia.
  - apply IH. lia.
  - rewrite filter_cons_True by exact E. f_equal. apply IH. lia.
  - apply IH. lia.
Qed.

Lemma select_all bs : select bs (replicate (length bs) true) = bs.
Proof. induction bs as [|b bs IH]; simpl; [reflexivity|now rewrite IH]. Qed.

Lemma select_length bs keep : (length (select bs keep) <= length bs)%nat.
Proof. apply sublist_length, select_sublist. Qed.

(** The survivors among the flagged boxes are the survivors of the list
    of flagged boxes. *)
Lemma survivors_select n : forall bs keep,
  (length bs <= n)%nat -> length keep = length bs ->
  select bs (final_flags t bs keep)
  = select (select bs keep)
      (final_flags t (select bs keep) (replicate (length (select bs keep)) true)).
Proof.
  induction n as [|n IH]; intros [|b bs] [|k keep] Hn Hk; simpl in *;
    try discriminate; try reflexivity; try lia.
  destruct k; simpl.
  - f_equal.
    rewrite (IH bs (mark t b bs keep)) by (rewrite ?mark_length; lia).
    rewrite (IH (select bs keep) (mark t b (select bs keep) _)).
    + rewrite !select_mark by (rewrite ?length_replicate; lia).
      now rewrite select_all.
    + pose proof (select_length bs keep). lia.
    + rewrite mark_length; rewrite ?length_replicate; reflexivity.
  - apply IH; lia.
Qed.

(** The greedy recursion: the first box stays, the boxes it matches go,
    and the rest is cleaned in the same way. *)
Lemma clean_boxes_cons b bs :
  clean_boxes (b :: bs) t
  = b :: clean_boxes (filter (fun c => same_object t b c = false) bs) t.
Proof.
  rewrite !clean_boxes_spec. simpl. f_equal.
  rewrite (survivors_select (length bs))
    by (rewrite ?mark_length; rewrite ?length_replicate; lia).
  now rewrite select_mark, select_all by (rewrite ?length_replicate; lia).
Qed.

Lemma survivors_apart bs : forall keep,
  length keep = length bs ->
  pairwise_apart t (select bs (final_flags t bs keep)).
Proof.
  induction bs as [|b bs IH]; intros [|k keep] Hk; simpl in *;
    try discriminate; try (intros i j bi bj _ Hi; discriminate Hi).
  destruct k; simpl.
  - apply pairwise_apart_cons. split.
    + apply survivors_Forall. intros j c Hc Hm.
      apply mark_lookup_true in Hm as (c' & Hc' & _ & Hs). congruence.
    + apply IH. rewrite mark_length; lia.
  - apply IH. lia.
Qed.

Lemma clean_boxes_apart bs : pairwise_apart t (clean_boxes bs t).
Proof.
  rewrite clean_boxes_spec. apply survivors_apart. now rewrite length_replicate.
Qed.

Lemma clean_boxes_fixed bs : pairwise_apart t bs -> clean_boxes bs t = bs.
Proof.
  induction bs as [|b bs IH]; intros H; [reflexivity|].
  apply pairwise_apart_cons in H as [F H].
  rewrite clean_boxes_cons.
  replace (filter (fun c => same_object t b c = false) bs) with bs.
  - now rewrite IH.
  - symmetry. clear IH H. induction F as [|c bs Hc _ IH]; [reflexivity|].
    rewrite filter_cons_True by exact Hc. now rewrite IH.
Qed.

(** A flagged box survives or is the same object as a survivor. *)
Lemma survivors_cover bs : forall keep (j : nat) c,
  length keep = length bs ->
  bs !! j = Some c -> keep !! j = Some true ->
  let out := select bs (final_flags t bs keep) in
  c ∈ out \/ exists b, b ∈ out /\ same_object t b c = true.
Proof.
  induction bs as [|b bs IH]; intros [|k keep] j c Hk Hc Hj; simpl in *;
    try discriminate.
  destruct j as [|j]; simpl in *.
  - injection Hc as ->. injection Hj as ->. simpl. left. apply list_elem_of_here.
  - destruct k; simpl.
    + destruct (same_object t b c) eqn:E.
      * right. exists b. split; [apply list_elem_of_here | exact E].
      * pose proof (mark_lookup b bs keep j c true Hc Hj) as Hm. rewrite E in Hm.
        destruct (IH (mark t b bs keep) j c ltac:(rewrite mark_length; lia) Hc Hm)
          as [H|(b' & H & Hs)].
        -- left. now apply list_elem_of_further.
        -- right. exists b'. split; [now apply list_elem_of_further | exact Hs].
    + apply (IH keep j c); [lia|exact Hc|exact Hj].
Qed.

Lemma clean_boxes_cover bs c :
  c ∈ bs ->
  c ∈ clean_boxes bs t \/
  exists b, b ∈ clean_boxes bs t /\ same_object t b c = true.
Proof.
  intros H. apply list_elem_of_lookup in H as [j Hj].
  rewrite clean_boxes_spec.
  apply (survivors_cover bs _ j c); [now rewrite length_replicate|exact Hj|].
  apply lookup_replicate_2. apply lookup_lt_Some in Hj. exact Hj.
Qed.

End Survivors.

Lemma iou_proper_self a : proper a -> calculate_iou a a = F32.one.
Proof.
  intros (Hx & Hy & Ha). unfold calculate_iou.
  replace (no_overlap a a) with false.
  - rewrite intersection_self, union_area_self.
    destruct (of_int_finite (area a) Ha (area_in_range a)) as (s & m & e & ->).
    apply div_self.
  - symmetry. unfold no_overlap, x_left, x_right, y_top, y_bottom.
    rewrite !Z.max_id, !Z.min_id. apply orb_false_iff.
    split; apply Z.ltb_ge; lia.
Qed.

Lemma same_object_nan b c : same_object F32.nan b c = false.
Proof.
  unfold same_object, F32.ge, F32.nan, SFleb. simpl.
  now destruct (calculate_iou b c).
Qed.

Lemma pairwise_apart_nan bs : pairwise_apart F32.nan bs.
Proof. intros i j bi bj _ _ _. apply same_object_nan. Qed.

(** X1: [frame_clean] is the greedy keep-first selection: an empty frame
    stays empty; otherwise the first box is kept, every later box with an
    IoU of at least the threshold with it is dropped, and the remaining
    boxes are cleaned in the same way. *)
Theorem frame_clean_greedy im t :
  boxes (frame_clean (Frame im []) t) = [] /\
  forall b bs,
    boxes (frame_clean (Frame im (b :: bs)) t)
    = b :: boxes (frame_clean
                    (Frame im (filter (fun c => same_object t b c = false) bs)) t).
Proof. split; [reflexivity|]. intros b bs. apply clean_boxes_cons. Qed.

(** X2: after [frame_clean] no box of the frame has an IoU of at least the
    threshold with a box that comes before it. *)
Theorem frame_clean_apart f t : pairwise_apart t (boxes (frame_clean f t)).
Proof. apply clean_boxes_apart. Qed.

(** X3: a box is dropped only for a reason: every box of the frame on
    entry is still in the frame afterwards, or some box that is still in
    the frame has an IoU of at least the threshold with it. *)
Theorem frame_clean_cover f t c :
  c ∈ boxes f ->
  c ∈ boxes (frame_clean f t) \/
  exists b, b ∈ boxes (frame_clean f t) /\ same_object t b c = true.
Proof. apply clean_boxes_cover. Qed.

Lemma frame_clean_cover_witness :
  Box 1 1 5 5 0 ∈ boxes (frame_clean
    (Frame (Image 0 0 0 []) [Box 0 0 4 4 0; Box 1 1 5 5 0])
    (F32.div (F32.of_int 3) (F32.of_int 10))) \/
  exists b,
    b ∈ boxes (frame_clean
      (Frame (Image 0 0 0 []) [Box 0 0 4 4 0; Box 1 1 5 5 0])
      (F32.div (F32.of_int 3) (F32.of_int 10))) /\
    same_object (F32.div (F32.of_int 3) (F32.of_int 10)) b (Box 1 1 5 5 0) = true.
Proof.
  apply (frame_clean_cover
    (Frame (Image 0 0 0 []) [Box 0 0 4 4 0; Box 1 1 5 5 0])).
  simpl. apply list_elem_of_further, list_elem_of_here.
Defined.

(** X4: [frame_clean] leaves a frame exactly as it is if and only if no
    box of the frame has an IoU of at least the threshold with an earlier
    box. *)
Theorem frame_clean_fixed_iff f t :
  frame_clean f t = f <-> pairwise_apart t (boxes f).
Proof.
  split.
  - intros E. rewrite <- E. apply clean_boxes_apart.
  - intros H. destruct f as [im bs]. unfold frame_clean. simpl in *.
    f_equal. now apply clean_boxes_fixed.
Qed.

(** X5: with a threshold of at most [1.0f], a frame of proper boxes holds
    no box twice after [frame_clean]: exact duplicates are removed. *)
Theorem frame_clean_NoDup f t :
  F32.le t F32.one = true -> Forall proper (boxes f) ->
  NoDup (boxes (frame_clean f t)).
Proof.
  intros Ht Hp. apply NoDup_alt. intros i j b Hi Hj.
  assert (Hb : proper b).
  { rewrite Forall_forall in Hp. apply Hp.
    unfold frame_clean in Hi. simpl in Hi. rewrite clean_boxes_spec in Hi.
    apply (elem_of_sublist _ _ _ (list_elem_of_lookup_2 _ _ _ Hi)).
    apply select_sublist. }
  assert (Hs : same_object t b b = true).
  { unfold same_object. rewrite (iou_proper_self b Hb). exact Ht. }
  pose proof (clean_boxes_apart t (boxes f)) as Ha.
  unfold frame_clean in Hi, Hj. simpl in Hi, Hj.
  destruct (Nat.lt_trichotomy i j) as [L|[E|L]]; [|exact E|].
  - rewrite (Ha i j b b L Hi Hj) in Hs. discriminate.
  - rewrite (Ha j i b b L Hj Hi) in Hs. discriminate.
Qed.

Lemma frame_clean_NoDup_witness :
  NoDup (boxes (frame_clean
    (Frame (Image 0 0 0 []) [Box 0 0 4 4 0; Box 0 0 4 4 0; Box 5 5 9 9 1])
    (F32.div (F32.of_int 1) (F32.of_int 2)))).
Proof.
  apply (frame_clean_NoDup
    (Frame (Image 0 0 0 []) [Box 0 0 4 4 0; Box 0 0 4 4 0; Box 5 5 9 9 1])).
  - reflexivity.
  - repeat constructor; simpl; try lia; vm_compute; discriminate.
Defined.

(** X6: at threshold [0.0f] the test [>=] holds for every IoU that is a
    number from 0 to 1, the IoU 0 of boxes that do not overlap included:
    if the first box has such an IoU with every other box, it is the only
    box left. *)
Theorem frame_clean_threshold_zero im b bs :
  Forall (fun c => in_unit (calculate_iou b c)) bs ->
  boxes (frame_clean (Frame im (b :: bs)) F32.zero) = [b].
Proof.
  intros H. unfold frame_clean. simpl. rewrite clean_boxes_cons.
  replace (filter (fun c => same_object F32.zero b c = false) bs) with (@nil box);
    [reflexivity|].
  symmetry. induction H as [|c bs [Hc _] _ IH]; [reflexivity|].
  rewrite filter_cons_False; [exact IH|].
  unfold same_object, F32.ge. unfold F32.le in Hc. rewrite Hc. discriminate.
Qed.

Lemma frame_clean_threshold_zero_witness :
  boxes (frame_clean
    (Frame (Image 0 0 0 []) [Box 0 0 4 4 0; Box 5 5 9 9 0; Box 1 1 5 5 0])
    F32.zero) = [Box 0 0 4 4 0].
Proof.
  apply (frame_clean_threshold_zero (Image 0 0 0 []) (Box 0 0 4 4 0)
           [Box 5 5 9 9 0; Box 1 1 5 5 0]).
  repeat constructor.
Defined.

(** ** [union_frames]: what the result holds *)

Lemma encloses_refl b : encloses b b.
Proof. unfold encloses. lia. Qed.

Lemma encloses_trans a b c : encloses a b -> encloses b c -> encloses a c.
Proof. unfold encloses. lia. Qed.

Lemma encloses_envelope_l b1 b2 : encloses (envelope b1 b2) b1.
Proof. unfold encloses, envelope. simpl. lia. Qed.

Lemma encloses_envelope_r b1 b2 : encloses (envelope b1 b2) b2.
Proof. unfold encloses, envelope. simpl. lia. Qed.

Lemma grows_refl rs : grows rs rs.
Proof. intros i r H. exists r. auto using encloses_refl. Qed.

Lemma grows_trans rs1 rs2 rs3 : grows rs1 rs2 -> grows rs2 rs3 -> grows rs1 rs3.
Proof.
  intros H12 H23 i r H.
  destruct (H12 i r H) as (r2 & H2 & T2 & E2).
  destruct (H23 i r2 H2) as (r3 & H3 & T3 & E3).
  exists r3. split; [exact H3|]. split; [congruence|].
  eapply encloses_trans; eassumption.
Qed.

Lemma grows_app rs l : grows rs (rs ++ l).
Proof.
  intros i r H. exists r. split; [now apply lookup_app_l_Some|].
  auto using encloses_refl.
Qed.

Lemma grows_cons b rs rs' : grows rs rs' -> grows (b :: rs) (b :: rs').
Proof.
  intros H [|i] r Hr; simpl in *.
  - exists r. auto using encloses_refl.
  - apply H, Hr.
Qed.

Lemma grows_length rs rs' : grows rs rs' -> (length rs <= length rs')%nat.
Proof.
  intros H. destruct (decide (length rs = 0)%nat) as [E|N]; [lia|].
  destruct (lookup_lt_is_Some_2 rs (length rs - 1) ltac:(lia)) as [r Hr].
  destruct (H _ _ Hr) as (r' & Hr' & _). apply lookup_lt_Some in Hr'. lia.
Qed.

Lemma grows_elem_of rs rs' r :
  grows rs rs' -> r ∈ rs -> exists r', r' ∈ rs' /\ encloses r' r.
Proof.
  intros H Hr. apply list_elem_of_lookup in Hr as [i Hi].
  destruct (H i r Hi) as (r' & Hr' & _ & E).
  exists r'. split; [now apply list_elem_of_lookup_2 in Hr'|exact E].
Qed.

Section Fusion.

Variable t : F32.float.

Lemma merge_scan_grows rs x : grows rs (fst (merge_scan t rs x)).
Proof.
  induction rs as [|a rs IH]; simpl; [apply grows_refl|].
  destruct (same_object t a x); simpl.
  - intros [|i] r Hr; simpl in *.
    + injection Hr as <-. exists (envelope a x).
      split; [reflexivity|]. split; [reflexivity|apply encloses_envelope_l].
    + exists r. auto using encloses_refl.
  - destruct (merge_scan t rs x) as [rs' m]. simpl in *. now apply grows_cons.
Qed.

Lemma merge_scan_merged rs x :
  snd (merge_scan t rs x) = true ->
  exists r, r ∈ fst (merge_scan t rs x) /\ encloses r x.
Proof.
  induction rs as [|a rs IH]; simpl; [discriminate|].
  destruct (same_object t a x); simpl.
  - intros _. exists (envelope a x).
    split; [apply list_elem_of_here | apply encloses_envelope_r].
  - destruct (merge_scan t rs x) as [rs' m]. simpl in *. intros Hm.
    destruct (IH Hm) as (r & Hr & E).
    exists r. split; [now apply list_elem_of_further | exact E].
Qed.

Lemma union_step_grows rs x : grows rs (union_step t rs x).
Proof.
  unfold union_step. pose proof (merge_scan_grows rs x) as H.
  destruct (merge_scan t rs x) as [rs' m]. simpl in H.
  destruct m; [exact H|]. eapply grows_trans; [exact H|apply grows_app].
Qed.

Lemma union_step_covers rs x :
  exists r, r ∈ union_step t rs x /\ encloses r x.
Proof.
  unfold union_step. pose proof (merge_scan_merged rs x) as H.
  destruct (merge_scan t rs x) as [rs' m]. simpl in H. destruct m.
  - now apply H.
  - exists x. split; [|apply encloses_refl].
    apply elem_of_app. right. apply list_elem_of_here.
Qed.

Lemma union_boxes_grows b : forall a, grows a (union_boxes a b t).
Proof.
  induction b as [|x b IH]; intros a; [apply grows_refl|].
  unfold union_boxes in *. simpl.
  eapply grows_trans; [apply union_step_grows | apply IH].
Qed.

Lemma union_boxes_covers b : forall a x,
  x ∈ b -> exists r, r ∈ union_boxes a b t /\ encloses r x.
Proof.
  induction b as [|y b IH]; intros a x Hx; [now apply elem_of_nil in Hx|].
  apply elem_of_cons in Hx as [->|Hx].
  - destruct (union_step_covers a y) as (r0 & Hr0 & E0).
    destruct (grows_elem_of _ _ r0 (union_boxes_grows b (union_step t a y)) Hr0)
      as (r & Hr & E).
    exists r. split; [exact Hr|]. eapply encloses_trans; eassumption.
  - apply (IH (union_step t a y) x Hx).
Qed.

Lemma cross_apart_snoc a b x :
  cross_apart t a (b ++ [x]) <->
  cross_apart t a b /\ Forall (fun c => same_object t c x = false) (a ++ b).
Proof.
  unfold cross_apart. split.
  - intros H. split.
    + intros j bj Hj. pose proof (lookup_lt_Some _ _ _ Hj) as L.
      specialize (H j bj (lookup_app_l_Some _ _ _ _ Hj)).
      now rewrite take_app_le in H by lia.
    + specialize (H (length b) x).
      rewrite take_app_length in H. apply H.
      rewrite lookup_app_r by lia. now rewrite Nat.sub_diag.
  - intros [H F] j bj Hj.
    destruct (decide (j < length b)%nat) as [L|L].
    + rewrite lookup_app_l in Hj by lia. rewrite take_app_le by lia. eauto.
    + rewrite lookup_app_r in Hj by lia.
      destruct (j - length b)%nat as [|k] eqn:E; simpl in Hj;
        [|destruct k; discriminate].
      injection Hj as <-. replace j with (length b) by lia.
      now rewrite take_app_length.
Qed.

(** Nothing is merged exactly when no secondary box matches a box that is
    in the result before it. *)
Lemma union_boxes_concat a b :
  union_boxes a b t = a ++ b <-> cross_apart t a b.
Proof.
  induction b as [|x b IH] using rev_ind.
  - rewrite app_nil_r. split; [|reflexivity]. intros _ j bj Hj. discriminate Hj.
  - rewrite union_boxes_snoc, cross_apart_snoc, app_assoc. split.
    + intros E.
      pose proof (union_boxes_length t a b) as Hl.
      pose proof (union_step_length t (union_boxes a b t) x) as Hs.
      rewrite E, !length_app in Hs. simpl in Hs.
      destruct (snd (merge_scan t (union_boxes a b t) x)) eqn:Em; [lia|].
      apply merge_scan_not_merged in Em.
      unfold union_step in E. rewrite (merge_scan_apart _ _ _ Em) in E.
      apply app_inj_tail in E as [E _].
      split; [now apply IH | now rewrite <- E].
    + intros [Hb F]. apply IH in Hb. rewrite Hb.
      unfold union_step. now rewrite (merge_scan_apart _ _ _ F).
Qed.

End Fusion.

Lemma cross_apart_nan a b : cross_apart F32.nan a b.
Proof.
  intros j bj _. apply Forall_forall. intros c _. apply same_object_nan.
Qed.

(** X7: a NaN threshold makes every test [>=] false: [frame_clean]
    removes nothing and [union_frames] appends every secondary box. *)
Theorem nan_threshold_no_match f1 f2 :
  frame_clean f1 F32.nan = f1 /\
  boxes (union_frames f1 f2 F32.nan) = boxes f1 ++ boxes f2.
Proof.
  split.
  - destruct f1 as [im bs]. unfold frame_clean. simpl. f_equal.
    apply clean_boxes_fixed, pairwise_apart_nan.
  - apply union_boxes_concat, cross_apart_nan.
Qed.

(** X8: the result of [union_frames] has at least as many boxes as the
    first frame and at most as many as both frames together. *)
Theorem union_frames_length f1 f2 t :
  (length (boxes f1) <= length (boxes (union_frames f1 f2 t))
   <= length (boxes f1) + length (boxes f2))%nat.
Proof.
  split.
  - apply grows_length, union_boxes_grows.
  - apply union_boxes_length.
Qed.

(** X9: every box of the first frame keeps its index and its [type] in
    the result, and the box at that index contains it: a merge only
    enlarges a box, it never moves, drops or relabels one. *)
Theorem union_frames_grows f1 f2 t :
  grows (boxes f1) (boxes (union_frames f1 f2 t)).
Proof. apply union_boxes_grows. Qed.

(** X10: nothing is lost in the fusion: every box of either frame is
    contained in some box of the result. *)
Theorem union_frames_covers f1 f2 t x :
  x ∈ boxes f1 \/ x ∈ boxes f2 ->
  exists r, r ∈ boxes (union_frames f1 f2 t) /\ encloses r x.
Proof.
  intros [H|H].
  - apply (grows_elem_of (boxes f1)); [apply union_boxes_grows | exact H].
  - now apply union_boxes_covers.
Qed.

Lemma union_frames_covers_witness :
  exists r,
    r ∈ boxes (union_frames
      (Frame (Image 0 0 0 []) [Box 0 0 4 4 0; Box 5 5 9 9 0])
      (Frame (Image 0 0 0 []) [Box 2 2 6 6 0; Box 10 10 14 14 0])
      (F32.div (F32.of_int 1) (F32.of_int 10))) /\
    encloses r (Box 2 2 6 6 0).
Proof.
  apply (union_frames_covers
    (Frame (Image 0 0 0 []) [Box 0 0 4 4 0; Box 5 5 9 9 0])
    (Frame (Image 0 0 0 []) [Box 2 2 6 6 0; Box 10 10 14 14 0])).
  right. simpl. apply list_elem_of_here.
Defined.

(** X11: the result of [union_frames] is the boxes of the first frame
    followed by the boxes of the second, unchanged, if and only if no box
    of the second frame has an IoU of at least the threshold with a box
    of the first frame or with an earlier box of the second. *)
Theorem union_frames_concat_iff f1 f2 t :
  boxes (union_frames f1 f2 t) = boxes f1 ++ boxes f2
  <-> cross_apart t (boxes f1) (boxes f2).
Proof. apply union_boxes_concat. Qed.

(** ** [calculate_iou]: degenerate boxes *)

(** Without overflow and with an open window, the [int] values are the
    mathematical ones, and the intersection is part of either box. *)
Lemma iou_values b1 b2 :
  fits_int b1 b2 -> no_overlap b1 b2 = false ->
  intersection b1 b2
  = (x_right b1 b2 - x_left b1 b2) * (y_bottom b1 b2 - y_top b1 b2) /\
  0 <= x_right b1 b2 - x_left b1 b2 /\ 0 <= y_bottom b1 b2 - y_top b1 b2 /\
  0 <= intersection b1 b2 <= area b1 /\ intersection b1 b2 <= area b2 /\
  union_area b1 b2 = area b1 + area b2 - intersection b1 b2 /\
  union_area b1 b2 < 2 ^ 31.
Proof.
  intros (W1 & H1 & W2 & H2 & A1 & A2 & S) G.
  unfold no_overlap in G. apply orb_false_iff in G as [Gx Gy].
  apply Z.ltb_ge in Gx, Gy.
  unfold union_area, area, intersection, Int32.sub, Int32.add, Int32.mul.
  unfold x_left, x_right, y_top, y_bottom in *.
  set (w := Z.min (x2 b1) (x2 b2) - Z.max (x1 b1) (x1 b2)) in *.
  set (h := Z.min (y2 b1) (y2 b2) - Z.max (y1 b1) (y1 b2)) in *.
  set (w1 := x2 b1 - x1 b1) in *. set (h1 := y2 b1 - y1 b1) in *.
  set (w2 := x2 b2 - x1 b2) in *. set (h2 := y2 b2 - y1 b2) in *.
  assert (Bw : 0 <= w /\ w <= w1 /\ w <= w2) by (unfold w, w1, w2; lia).
  assert (Bh : 0 <= h /\ h <= h1 /\ h <= h2) by (unfold h, h1, h2; lia).
  assert (I1 : w * h <= w1 * h1) by nia.
  assert (I2 : w * h <= w2 * h2) by nia.
  assert (I0 : 0 <= w * h) by nia.
  rewrite (wrap_small w), (wrap_small h), (wrap_small w1), (wrap_small h1),
    (wrap_small w2), (wrap_small h2) by int_range.
  rewrite (wrap_small (w * h)), (wrap_small (w1 * h1)), (wrap_small (w2 * h2))
    by int_range.
  rewrite (wrap_small (w1 * h1 + w2 * h2)) by int_range.
  rewrite wrap_small by int_range.
  repeat split; try lia. int_range.
Qed.

Lemma div_zero_by_positive u :
  0 < u < 2 ^ 32 -> F32.div (F32.of_int 0) (F32.of_int u) = F32.zero.
Proof.
  intros Hu. destruct u as [|p|p]; try lia.
  destruct (of_int_pos p ltac:(lia)) as (m & e & -> & _). reflexivity.
Qed.

(** X12: as long as the [int] computations do not overflow, the result of
    [calculate_iou] is NaN in exactly one situation: the intersection
    window is not empty and both boxes have area 0 (the quotient is then
    [0.0f / 0.0f]). *)
Theorem calculate_iou_nan_iff b1 b2 :
  fits_int b1 b2 ->
  (calculate_iou b1 b2 = F32.nan
   <-> no_overlap b1 b2 = false /\ area b1 = 0 /\ area b2 = 0).
Proof.
  intros Hf. unfold calculate_iou.
  destruct (no_overlap b1 b2) eqn:G.
  - split; [discriminate|]. intros [H _]. discriminate H.
  - destruct (iou_values b1 b2 Hf G) as (_ & _ & _ & Hi & Hi2 & Hu & Hlt).
    destruct (Z.eq_dec (union_area b1 b2) 0) as [E|N].
    + assert (intersection b1 b2 = 0) by lia.
      split; [intros _; lia|]. intros _. rewrite E. now replace (intersection b1 b2) with 0.
    + split; [|lia]. intros Hn. exfalso.
      apply in_unit_not_nan. rewrite <- Hn. apply div_of_int_in_unit; lia.
Qed.

Lemma calculate_iou_nan_iff_witness :
  calculate_iou (Box 3 3 3 7 0) (Box 3 5 3 9 1) = F32.nan
  <-> no_overlap (Box 3 3 3 7 0) (Box 3 5 3 9 1) = false
      /\ area (Box 3 3 3 7 0) = 0 /\ area (Box 3 5 3 9 1) = 0.
Proof.
  apply (calculate_iou_nan_iff (Box 3 3 3 7 0) (Box 3 5 3 9 1)).
  unfold fits_int, Int32.in_range, Int32.min_int, Int32.max_int. simpl. lia.
Defined.

(** X13: boxes that only touch have IoU [0.0f].  When the window is not
    empty but has no width or no height, the [int] computations do not
    overflow and one of the boxes has a non-zero area, [calculate_iou]
    returns exactly [0.0f], although the early return is not taken. *)
Theorem calculate_iou_touching b1 b2 :
  fits_int b1 b2 -> no_overlap b1 b2 = false ->
  x_left b1 b2 = x_right b1 b2 \/ y_top b1 b2 = y_bottom b1 b2 ->
  area b1 <> 0 \/ area b2 <> 0 ->
  calculate_iou b1 b2 = F32.zero.
Proof.
  intros Hf G Ht Ha. unfold calculate_iou. rewrite G.
  destruct (iou_values b1 b2 Hf G) as (Ei & Hw & Hh & Hi & Hi2 & Hu & Hlt).
  assert (E0 : intersection b1 b2 = 0) by (rewrite Ei; nia).
  rewrite E0. apply div_zero_by_positive. lia.
Qed.

Lemma calculate_iou_touching_witness :
  calculate_iou (Box 0 0 2 2 0) (Box 2 0 4 2 0) = F32.zero.
Proof.
  apply (calculate_iou_touching (Box 0 0 2 2 0) (Box 2 0 4 2 0)).
  - unfold fits_int, Int32.in_range, Int32.min_int, Int32.max_int. simpl. lia.
  - reflexivity.
  - left. reflexivity.
  - left. vm_compute. discriminate.
Defined.

(** ** [rgb2bgr]: repeated calls, bounds, conservation *)

Lemma swap_channels_short (d : list Byte.byte) off :
  (length d < off + 3)%nat -> swap_channels d off = None.
Proof.
  intros H. unfold swap_channels.
  rewrite (lookup_ge_None_2 d (off + 2)) by lia.
  now destruct (d !! off).
Qed.

Lemma swap_loop_short steps : forall (d : list Byte.byte) off,
  steps <> 0%nat -> (length d < off + 3 * steps)%nat ->
  swap_loop d off steps = None.
Proof.
  induction steps as [|steps IH]; intros d off Hs H; [congruence|].
  cbn [swap_loop].
  destruct (swap_channels d off) as [d1|] eqn:E1; [|reflexivity].
  destruct (swap_channels_lookup d off d1 E1) as (L1 & _).
  destruct (decide (length d < off + 3)%nat) as [S|S].
  - rewrite swap_channels_short in E1 by exact S. discriminate.
  - apply IH; lia.
Qed.

Lemma swap_loop_none_iff (d : list Byte.byte) off steps :
  swap_loop d off steps = None
  <-> steps <> 0%nat /\ (length d < off + 3 * steps)%nat.
Proof.
  split.
  - intros H. destruct steps as [|steps]; [discriminate|].
    split; [discriminate|].
    destruct (decide (off + 3 * S steps <= length d)%nat) as [L|L]; [|lia].
    destruct (swap_loop_spec (S steps) d off L) as (d' & E & _). congruence.
  - intros [Hs H]. now apply swap_loop_short.
Qed.

Lemma swap_channels_perm (d d' : list Byte.byte) off :
  swap_channels d off = Some d' -> d' ≡ₚ d.
Proof.
  unfold swap_channels.
  destruct (d !! off) as [c0|] eqn:E0; [|discriminate].
  destruct (d !! (off + 2)%nat) as [c2|] eqn:E2; [|discriminate].
  intros [= <-]. now apply Permutation_insert_swap.
Qed.

Lemma swap_loop_perm steps : forall (d d' : list Byte.byte) off,
  swap_loop d off steps = Some d' -> d' ≡ₚ d.
Proof.
  induction steps as [|steps IH]; intros d d' off H; cbn [swap_loop] in H.
  - now injection H as <-.
  - destruct (swap_channels d off) as [d1|] eqn:E1; [|discriminate].
    rewrite (IH _ _ _ H). now apply swap_channels_perm in E1.
Qed.

(** Converting the converted buffer gives the buffer back. *)
Lemma swap_loop_involutive (d d' : list Byte.byte) steps :
  swap_loop d 0 steps = Some d' -> swap_loop d' 0 steps = Some d.
Proof.
  intros H. destruct (decide (steps = 0)%nat) as [->|Hs].
  { cbn in H |- *. congruence. }
  assert (L : (0 + 3 * steps <= length d)%nat).
  { destruct (decide (0 + 3 * steps <= length d)%nat) as [L|L]; [exact L|].
    rewrite swap_loop_short in H by lia. discriminate. }
  destruct (swap_loop_spec steps d 0%nat L) as (d1 & E1 & L1 & _ & Hi1 & Px1).
  assert (d1 = d') by congruence. subst d1.
  destruct (swap_loop_spec steps d' 0%nat ltac:(lia)) as (d2 & E2 & L2 & _ & Hi2 & Px2).
  rewrite E2. f_equal. apply list_eq. intros k.
  destruct (decide (0 + 3 * steps <= k)%nat) as [G|G].
  - now rewrite Hi2, Hi1.
  - pose proof (Nat.div_mod_eq k 3) as Ek.
    pose proof (Nat.mod_upper_bound k 3 ltac:(lia)) as Br.
    set (i := (k / 3)%nat) in *. set (r := (k mod 3)%nat) in *.
    assert (Hi : (i < steps)%nat) by lia.
    destruct (Px1 i Hi) as (A0 & A1 & A2).
    destruct (Px2 i Hi) as (B0 & B1 & B2).
    destruct r as [|[|[|r]]]; [| | |lia].
    + replace k with (0 + 3 * i)%nat by lia. now rewrite B0, A2.
    + replace k with (0 + 3 * i + 1)%nat by lia. now rewrite B1, A1.
    + replace k with (0 + 3 * i + 2)%nat by lia. now rewrite B2, A0.
Qed.

(** X14: a converted image is not converted again.  Whatever the first
    call returned, the image it leaves is not tagged RGB, so a further
    call returns [false] and changes nothing. *)
Theorem rgb2bgr_again im r im' :
  rgb2bgr im = Some (r, im') -> rgb2bgr im' = Some (false, im').
Proof.
  unfold rgb2bgr. destruct (format im =? 1) eqn:F.
  - destruct (swap_loop _ _ _); [|discriminate]. intros [= <- <-]. reflexivity.
  - intros [= <- <-]. now rewrite F.
Qed.

Lemma rgb2bgr_again_witness :
  rgb2bgr (Image 1 1 2 [Byte.x03; Byte.x02; Byte.x01])
  = Some (false, Image 1 1 2 [Byte.x03; Byte.x02; Byte.x01]).
Proof.
  apply (rgb2bgr_again (Image 1 1 1 [Byte.x01; Byte.x02; Byte.x03]) true).
  reflexivity.
Defined.

(** X15: the channel swap is its own inverse: when a conversion succeeds,
    setting the tag of the converted image back to RGB and converting
    again restores every byte of the original buffer. *)
Theorem rgb2bgr_round_trip im im' :
  rgb2bgr im = Some (true, im') ->
  rgb2bgr (Image (width im') (height im') 1 (data im'))
  = Some (true, Image (width im) (height im) 2 (data im)).
Proof.
  unfold rgb2bgr. destruct (format im =? 1) eqn:F; [|discriminate].
  destruct (swap_loop (data im) 0 (pixel_count im)) as [d'|] eqn:E;
    [|discriminate].
  intros [= <-]. simpl.
  change (pixel_count (Image (width im) (height im) 1 d')) with (pixel_count im).
  now rewrite (swap_loop_involutive _ _ _ E).
Qed.

Lemma rgb2bgr_round_trip_witness :
  rgb2bgr (Image 1 2 1
    [Byte.x03; Byte.x02; Byte.x01; Byte.x06; Byte.x05; Byte.x04])
  = Some (true, Image 1 2 2
    [Byte.x01; Byte.x02; Byte.x03; Byte.x04; Byte.x05; Byte.x06]).
Proof.
  apply (rgb2bgr_round_trip
    (Image 1 2 1 [Byte.x01; Byte.x02; Byte.x03; Byte.x04; Byte.x05; Byte.x06])
    (Image 1 2 2 [Byte.x03; Byte.x02; Byte.x01; Byte.x06; Byte.x05; Byte.x04])).
  reflexivity.
Defined.

(** X16: the only way [rgb2bgr] can leave the buffer is an RGB image
    whose buffer is shorter than three bytes for each of the
    [height * width] iterations: the call has a defined result in every
    other case, and in none when the buffer is that short. *)
Theorem rgb2bgr_undefined_iff im :
  rgb2bgr im = None
  <-> format im = 1 /\ (length (data im) < 3 * pixel_count im)%nat.
Proof.
  unfold rgb2bgr. destruct (Z.eqb_spec (format im) 1) as [F|F].
  - destruct (swap_loop (data im) 0 (pixel_count im)) as [d'|] eqn:E.
    + split; [discriminate|]. intros [_ H].
      assert (N : swap_loop (data im) 0 (pixel_count im) = None)
        by (apply swap_loop_none_iff; lia).
      congruence.
    + split; [|reflexivity]. intros _. split; [exact F|].
      apply swap_loop_none_iff in E. lia.
  - split; [discriminate|]. intros [H _]. contradiction.
Qed.

(** X17: a conversion neither loses nor invents a byte: the buffer after
    a successful call is a rearrangement of the buffer before it, and the
    dimensions are kept. *)
Theorem rgb2bgr_permutation im r im' :
  rgb2bgr im = Some (r, im') ->
  data im' ≡ₚ data im /\ width im' = width im /\ height im' = height im.
Proof.
  unfold rgb2bgr. destruct (format im =? 1).
  - destruct (swap_loop (data im) 0 (pixel_count im)) as [d'|] eqn:E;
      [|discriminate].
    intros [= <- <-]. simpl. split; [|auto]. now apply swap_loop_perm in E.
  - intros [= <- <-]. auto.
Qed.

Lemma rgb2bgr_permutation_witness :
  data (Image 1 1 2 [Byte.x03; Byte.x02; Byte.x01])
    ≡ₚ data (Image 1 1 1 [Byte.x01; Byte.x02; Byte.x03]) /\
  width (Image 1 1 2 [Byte.x03; Byte.x02; Byte.x01])
    = width (Image 1 1 1 [Byte.x01; Byte.x02; Byte.x03]) /\
  height (Image 1 1 2 [Byte.x03; Byte.x02; Byte.x01])
    = height (Image 1 1 1 [Byte.x01; Byte.x02; Byte.x03]).
Proof.
  apply (rgb2bgr_permutation (Image 1 1 1 [Byte.x01; Byte.x02; Byte.x03]) true).
  reflexivity.
Defined.

(** ** [calculate_iou] on coordinates of 15 bits *)

Lemma small_coordinates_fit b1 b2 :
  small_coordinates b1 -> small_coordinates b2 -> fits_int b1 b2.
Proof.
  unfold small_coordinates, fits_int. intros H1 H2.
  set (w1 := x2 b1 - x1 b1). set (h1 := y2 b1 - y1 b1).
  set (w2 := x2 b2 - x1 b2). set (h2 := y2 b2 - y1 b2).
  assert (-32767 <= w1 <= 32767) by (unfold w1; lia).
  assert (-32767 <= h1 <= 32767) by (unfold h1; lia).
  assert (-32767 <= w2 <= 32767) by (unfold w2; lia).
  assert (-32767 <= h2 <= 32767) by (unfold h2; lia).
  assert (-1073676289 <= w1 * h1 <= 1073676289) by nia.
  assert (-1073676289 <= w2 * h2 <= 1073676289) by nia.
  repeat split; int_range.
Qed.

(** X18: for boxes whose coordinates all lie between 0 and 32767 nothing
    overflows: [calculate_iou] returns a float from [0.0f] to [1.0f], or
    NaN, and NaN only for two boxes of area 0. *)
Theorem calculate_iou_small b1 b2 :
  small_coordinates b1 -> small_coordinates b2 ->
  in_unit (calculate_iou b1 b2) \/
  (calculate_iou b1 b2 = F32.nan /\ area b1 = 0 /\ area b2 = 0).
Proof.
  intros H1 H2. pose proof (small_coordinates_fit b1 b2 H1 H2) as Hf.
  unfold calculate_iou. destruct (no_overlap b1 b2) eqn:G.
  - left. apply in_unit_zero.
  - destruct (iou_values b1 b2 Hf G) as (_ & _ & _ & Hi & Hi2 & Hu & Hlt).
    destruct (Z.eq_dec (union_area b1 b2) 0) as [E|N].
    + right. assert (E0 : intersection b1 b2 = 0) by lia.
      rewrite E, E0. split; [reflexivity|lia].
    + left. apply div_of_int_in_unit; lia.
Qed.

Lemma calculate_iou_small_witness :
  in_unit (calculate_iou (Box 0 0 32767 32767 0) (Box 1 1 32767 32767 0)) \/
  (calculate_iou (Box 0 0 32767 32767 0) (Box 1 1 32767 32767 0) = F32.nan /\
   area (Box 0 0 32767 32767 0) = 0 /\ area (Box 1 1 32767 32767 0) = 0).
Proof.
  apply (calculate_iou_small (Box 0 0 32767 32767 0) (Box 1 1 32767 32767 0));
    unfold small_coordinates; simpl; lia.
Defined.

(** ** [union_frames] after [frame_clean] *)

Lemma envelope_self b : envelope b b = b.
Proof. destruct b. unfold envelope. simpl. now rewrite !Z.min_id, !Z.max_id. Qed.

Section SelfFusion.

Variable t : F32.float.
Hypothesis t_le_one : F32.le t F32.one = true.

Lemma same_object_proper_self b : proper b -> same_object t b b = true.
Proof.
  intros H. unfold same_object. rewrite (iou_proper_self b H). exact t_le_one.
Qed.

(** Scanning for a box that is in the list, past entries that do not
    match it, merges the box into itself. *)
Lemma merge_scan_member pre x suf :
  proper x -> Forall (fun c => same_object t c x = false) pre ->
  merge_scan t (pre ++ x :: suf) x = (pre ++ x :: suf, true).
Proof.
  intros Hx F. induction F as [|c pre Hc _ IH]; simpl.
  - now rewrite (same_object_proper_self x Hx), envelope_self.
  - now rewrite Hc, IH.
Qed.

Lemma union_step_member bs x :
  pairwise_apart t bs -> Forall proper bs -> x ∈ bs ->
  union_step t bs x = bs.
Proof.
  intros Ha Hp Hx. apply list_elem_of_lookup in Hx as [j Hj].
  assert (Px : proper x).
  { rewrite Forall_lookup in Hp. eauto. }
  pose proof (take_drop_middle bs j x Hj) as E.
  unfold union_step. rewrite <- E at 1.
  rewrite merge_scan_member; [exact E|exact Px|].
  apply Forall_lookup. intros i c Hc.
  pose proof (lookup_lt_Some _ _ _ Hc) as Li. rewrite length_take in Li.
  rewrite lookup_take_lt in Hc by lia.
  apply (Ha i j c x); [lia|exact Hc|exact Hj].
Qed.

Lemma union_boxes_members bs l :
  pairwise_apart t bs -> Forall proper bs -> (forall x, x ∈ l -> x ∈ bs) ->
  union_boxes bs l t = bs.
Proof.
  intros Ha Hp. induction l as [|x l IH]; intros Hl; [reflexivity|].
  unfold union_boxes in *. simpl.
  rewrite (union_step_member bs x Ha Hp) by (apply Hl, list_elem_of_here).
  apply IH. intros y Hy. now apply Hl, list_elem_of_further.
Qed.

End SelfFusion.

(** X19: fusing a cleaned frame with itself changes nothing.  With a
    threshold of at most [1.0f] and proper boxes, every box of the cleaned
    frame finds itself as its first match and is merged into itself. *)
Theorem union_frames_clean_self f t :
  F32.le t F32.one = true -> Forall proper (boxes f) ->
  union_frames (frame_clean f t) (frame_clean f t) t = frame_clean f t.
Proof.
  intros Ht Hp. unfold union_frames, frame_clean. simpl. f_equal.
  apply union_boxes_members; [exact Ht|apply clean_boxes_apart| |auto].
  rewrite clean_boxes_spec.
  rewrite Forall_forall in Hp |- *. intros x Hx. apply Hp.
  exact (elem_of_sublist _ _ _ Hx (select_sublist _ _)).
Qed.

Lemma union_frames_clean_self_witness :
  union_frames
    (frame_clean (Frame (Image 0 0 0 []) [Box 0 0 4 4 0; Box 1 1 5 5 0; Box 5 5 9 9 1])
                 (F32.div (F32.of_int 3) (F32.of_int 10)))
    (frame_clean (Frame (Image 0 0 0 []) [Box 0 0 4 4 0; Box 1 1 5 5 0; Box 5 5 9 9 1])
                 (F32.div (F32.of_int 3) (F32.of_int 10)))
    (F32.div (F32.of_int 3) (F32.of_int 10))
  = frame_clean (Frame (Image 0 0 0 []) [Box 0 0 4 4 0; Box 1 1 5 5 0; Box 5 5 9 9 1])
                (F32.div (F32.of_int 3) (F32.of_int 10)).
Proof.
  apply (union_frames_clean_self
    (Frame (Image 0 0 0 []) [Box 0 0 4 4 0; Box 1 1 5 5 0; Box 5 5 9 9 1])).
  - reflexivity.
  - repeat constructor; simpl; try lia; vm_compute; discriminate.
Defined.

(** ** The test programs *)

(** X20: the program's own tests pass.  Whatever the uninitialised image
    handles of the test frames hold, no [assert] of the four tests fails;
    [main] prints the four lines and returns 0. *)
Theorem main_passes garbage1 garbage2 garbage3 :
  main garbage1 garbage2 garbage3
  = Some (["test_rgb2bgr passed!"; "test_calculate_iou passed!";
           "test_frame_clean passed!"; "test_union_frames passed!"], 0).
Proof. reflexivity. Qed.
